(** * Implicit geological models: events, priors and histories

    A shallow embedding of [blockworlds/implicit.py], and of the partial
    volumes and the one-feature predictions of [blockworlds/antialias.py].

    Conventions of the embedding.
    - A Python float is an exact rational ([Qc], canonical fractions, so
      that equal numbers are equal terms).  Rounding is not modelled there:
      a statement that depends on exact arithmetic says so, and where
      rounding decides, the same code is run on IEEE doubles ([Binary64]).
      The IEEE values +inf, -inf and nan are modelled where the program
      produces them on purpose, namely in log-densities ([xfloat]).
    - A division by zero is guarded by a hypothesis wherever a statement
      depends on it (a transition scale, a std, a wavelength, a norm).
    - A numpy array of floats is a [list Qc]; an (N,3) array of points is a
      list of triples.
    - numpy's elementary functions (cos, sin, sqrt, log, ...) are not
      defined here: they are fields of the class [Numeric] and every result
      holds for all of them.
    - Objects live in a store ([gmap] from locations to event records); a
      history holds locations, and an event refers to its predecessor by
      location, as the Python objects do by reference.
    - A Python exception is the [Raise] outcome of [result]. *)

From Stdlib Require Import QArith Qcanon Lqa Floats.
From stdpp Require Import gmap strings list fin_maps sorting.

(** ** Outcomes of Python code *)

Inductive exn : Set :=
  | AttributeError
  | ValueError
  | IndexError
  | TypeError
  | AssertionError
  | NotImplementedError
  | RecursionError
  | Unallocated.  (* a location outside the store; no Python counterpart *)

Inductive result (A : Type) : Type :=
  | Ok (a : A)
  | Raise (e : exn).
Arguments Ok {A} a.
Arguments Raise {A} e.

#[global] Instance result_ret : MRet result := @Ok.
#[global] Instance result_bind : MBind result :=
  λ A B f m, match m with Ok a => f a | Raise e => Raise e end.

Definition succeeds {A} (m : result A) : Prop := ∃ a, m = Ok a.
Definition fails {A} (m : result A) : Prop := ∃ e, m = Raise e.

(** ** Numbers *)

Definition Qcltb (x y : Qc) : bool :=
  match (x ?= y)%Qc with Lt => true | _ => false end.

Definition half : Qc := Q2Qc (1 # 2).
Definition two : Qc := Q2Qc 2.
Definition qc (z : Z) : Qc := Q2Qc (inject_Z z).

(* np.abs on a scalar *)
Definition np_abs (x : Qc) : Qc := if Qcltb x 0%Qc then (- x)%Qc else x.

(** Floats with the IEEE special values.  Finite arithmetic is exact; the
    sign of zero is not modelled. *)
Inductive xfloat : Set :=
  | Fin (q : Qc)
  | PInf
  | NInf
  | NaN.

Definition xneg (a : xfloat) : xfloat :=
  match a with
  | Fin q => Fin (- q)%Qc
  | PInf => NInf
  | NInf => PInf
  | NaN => NaN
  end.

Definition xadd (a b : xfloat) : xfloat :=
  match a, b with
  | NaN, _ | _, NaN => NaN
  | Fin p, Fin q => Fin (p + q)%Qc
  | PInf, NInf | NInf, PInf => NaN
  | PInf, _ | _, PInf => PInf
  | NInf, _ | _, NInf => NInf
  end.

Definition xsub (a b : xfloat) : xfloat := xadd a (xneg b).

(* the infinity whose sign is that of q times the sign s (true = +) *)
Definition xinf_signed (s : bool) (q : Qc) : xfloat :=
  if Qcltb 0%Qc q then (if s then PInf else NInf)
  else if Qcltb q 0%Qc then (if s then NInf else PInf)
  else NaN.

Definition xmul (a b : xfloat) : xfloat :=
  match a, b with
  | NaN, _ | _, NaN => NaN
  | Fin p, Fin q => Fin (p * q)%Qc
  | Fin p, PInf | PInf, Fin p => xinf_signed true p
  | Fin p, NInf | NInf, Fin p => xinf_signed false p
  | PInf, PInf | NInf, NInf => PInf
  | PInf, NInf | NInf, PInf => NInf
  end.

Definition xdiv (a b : xfloat) : xfloat :=
  match a, b with
  | NaN, _ | _, NaN => NaN
  | Fin p, Fin q =>
      if Qc_eq_dec q 0%Qc then xinf_signed true p else Fin (p / q)%Qc
  | Fin _, (PInf | NInf) => Fin 0%Qc
  | (PInf | NInf), (PInf | NInf) => NaN
  | PInf, Fin q => if Qcltb q 0%Qc then NInf else PInf
  | NInf, Fin q => if Qcltb q 0%Qc then PInf else NInf
  end.

Declare Scope xfloat_scope.
Delimit Scope xfloat_scope with X.
Bind Scope xfloat_scope with xfloat.
Infix "+" := xadd : xfloat_scope.
Infix "-" := xsub : xfloat_scope.
Infix "*" := xmul : xfloat_scope.
Infix "/" := xdiv : xfloat_scope.
Notation "- x" := (xneg x) : xfloat_scope.

(* A log-density is proper when it is a number or -inf. *)
Definition proper (a : xfloat) : Prop :=
  match a with Fin _ | NInf => True | PInf | NaN => False end.

(** ** The numerical library *)

Class Numeric : Type := {
  np_pi : Qc;
  np_cos : Qc → Qc;
  np_sin : Qc → Qc;
  np_sqrt : Qc → Qc;
  np_log : Qc → Qc;        (* on positive arguments *)
  np_exp : Qc → Qc;
  np_arcsin : Qc → Qc;
  np_arctan2 : Qc → Qc → Qc;
  ive : Qc → Qc → Qc       (* scipy.special.ive *)
}.

(** ** Helper functions *)

Definition vec3 : Type := Qc * Qc * Qc.

Definition vadd (a b : vec3) : vec3 :=
  let '(a1, a2, a3) := a in let '(b1, b2, b3) := b in
  (a1 + b1, a2 + b2, a3 + b3)%Qc.

Definition vsub (a b : vec3) : vec3 :=
  let '(a1, a2, a3) := a in let '(b1, b2, b3) := b in
  (a1 - b1, a2 - b2, a3 - b3)%Qc.

(* scalar * vector and vector / scalar, element by element *)
Definition vscale (k : Qc) (a : vec3) : vec3 :=
  let '(a1, a2, a3) := a in (k * a1, k * a2, k * a3)%Qc.

Definition vdiv (a : vec3) (k : Qc) : vec3 :=
  let '(a1, a2, a3) := a in (a1 / k, a2 / k, a3 / k)%Qc.

(* np.cross *)
Definition cross (a b : vec3) : vec3 :=
  let '(a1, a2, a3) := a in let '(b1, b2, b3) := b in
  (a2 * b3 - a3 * b2, a3 * b1 - a1 * b3, a1 * b2 - a2 * b1)%Qc.

(* np.dot *)
Definition dot (a b : vec3) : Qc :=
  let '(a1, a2, a3) := a in let '(b1, b2, b3) := b in
  (a1 * b1 + a2 * b2 + a3 * b3)%Qc.

Definition zcoord (a : vec3) : Qc := a.2.

Definition zaxis : vec3 := (0, 0, 1)%Qc.

(** [soft_if_then] works on arrays of one common shape, element by element:
    the linear ramp first, then the two masked assignments in the order of
    the source.  [rockprops] calls it on arrays of equal lengths only; the
    statements about it assume equal lengths, since numpy refuses other
    shapes. *)
Definition soft_step (h d y0 y1 : Qc) : Qc :=
  let result := (half * (y0 + y1) - (y0 - y1) * d / h)%Qc in
  let result := if Qcltb d (- half * h)%Qc then y0 else result in
  if Qcltb (half * h)%Qc d then y1 else result.

Fixpoint soft_if_then (d y0 y1 : list Qc) (h : Qc) : list Qc :=
  match d, y0, y1 with
  | di :: d', a :: y0', b :: y1' =>
      soft_step h di a b :: soft_if_then d' y0' y1' h
  | _, _, _ => []
  end.

Section Helpers.
Context `{Numeric}.

Definition np_radians (x : Qc) : Qc := (x * (np_pi / qc 180))%Qc.
Definition np_degrees (x : Qc) : Qc := (x * (qc 180 / np_pi))%Qc.

Definition l2norm (v : vec3) : Qc :=
  let '(v1, v2, v3) := v in np_sqrt (v1 * v1 + v2 * v2 + v3 * v3)%Qc.

Definition sph2xyz (th ph : Qc) : vec3 :=
  let thr := np_radians th in
  let phr := np_radians ph in
  (np_cos thr * np_cos phr, np_cos thr * np_sin phr, np_sin thr)%Qc.

(* np.log with its values at and below zero *)
Definition xlog (x : Qc) : xfloat :=
  if Qcltb 0%Qc x then Fin (np_log x)
  else if Qc_eq_dec x 0%Qc then NInf else NaN.
End Helpers.

(** ** Python values held by attributes *)

Inductive pyval : Set :=
  | PyFloat (q : Qc)
  | PyStr (s : string).

(* arithmetic on a string raises TypeError *)
Definition as_float (v : pyval) : result Qc :=
  match v with
  | PyFloat q => Ok q
  | PyStr _ => Raise TypeError
  end.

(** ** Probability distributions *)

Inductive LogPrior : Set :=
  | UniGaussianDist (mean std : Qc)
  | UniformDist (mean width : Qc)
  | vMFDist (th0 ph0 kappa : Qc).

Definition Ndim (d : LogPrior) : nat :=
  match d with
  | UniGaussianDist _ _ => 1
  | UniformDist _ _ => 1
  | vMFDist _ _ _ => 2
  end.

(** The generator behind [np.random]: a supply of standard normal and of
    standard uniform deviates, and the number of deviates already used. *)
Record RandomState : Type := {
  std_normal : nat → Qc;
  std_uniform : nat → Qc;
  cursor : nat
}.

Definition advance (n : nat) (g : RandomState) : RandomState :=
  {| std_normal := std_normal g;
     std_uniform := std_uniform g;
     cursor := cursor g + n |}.

(* np.random.normal refuses a negative scale *)
Definition np_random_normal (loc scale : Qc) (size : nat) (g : RandomState)
  : result (list Qc * RandomState) :=
  if Qcltb scale 0%Qc then Raise ValueError
  else Ok (map (λ i, loc + scale * std_normal g (cursor g + i))%Qc
             (seq 0 size),
           advance size g).

(* low + (high - low)*u for each deviate u, without rounding *)
Definition np_random_uniform (low high : Qc) (size : nat) (g : RandomState)
  : list Qc * RandomState :=
  (map (λ i, low + (high - low) * std_uniform g (cursor g + i))%Qc (seq 0 size),
   advance size g).

(* an array of shape (size,) combined with one of shape (3,) *)
Definition broadcast3 (a : list Qc) : result vec3 :=
  match a with
  | [x] => Ok (x, x, x)
  | [x1; x2; x3] => Ok (x1, x2, x3)
  | _ => Raise ValueError
  end.

Definition vmul (a b : vec3) : vec3 :=
  let '(a1, a2, a3) := a in let '(b1, b2, b3) := b in
  (a1 * b1, a2 * b2, a3 * b3)%Qc.

Section Priors.
Context `{Numeric}.

(** [__call__]: the log-density.  With [std = 0] and a numpy float [x] the
    division gives inf or nan as below; with a Python float [x] it raises
    ZeroDivisionError: statements about the Gaussian density assume a
    non-zero std. *)

Definition UniGaussianDist_call (mean std x : Qc) : xfloat :=
  let lognorm := (Fin (- half) * xlog (two * np_pi * std ^ 2))%X in
  let z := (Fin (x - mean) / Fin std)%X in
  (Fin (- half) * (z * z) + lognorm)%X.

Definition UniformDist_call (mean width x : Qc) : xfloat :=
  let lognorm := (- xlog width)%X in
  if Qcltb (half * width)%Qc (np_abs (x - mean)) then NInf else lognorm.

(* attributes computed by vMFDist.__init__ *)
Definition vMF_gamma (th0 ph0 : Qc) : vec3 := sph2xyz th0 ph0.

Definition vMF_v0 (th0 ph0 : Qc) : vec3 :=
  let v0 := cross (vMF_gamma th0 ph0) zaxis in
  vdiv v0 (np_sqrt (dot v0 v0)).

Definition vMF_v1 (th0 ph0 : Qc) : vec3 :=
  let v1 := cross (vMF_v0 th0 ph0) (vMF_gamma th0 ph0) in
  vdiv v1 (np_sqrt (dot v1 v1)).

Definition vMFDist_call (th0 ph0 kappa th ph : Qc) : xfloat :=
  let pm := (half * qc 3 - 1)%Qc in
  let x := sph2xyz th ph in
  let logbess := (xlog (ive pm kappa) + Fin kappa)%X in
  let lognorm :=
    (Fin pm * xlog kappa - Fin (pm + 1) * xlog (two * np_pi) - logbess)%X in
  (lognorm + Fin (kappa * dot (vMF_gamma th0 ph0) x))%X.

(* the call of a distribution on the unpacked list pars *)
Definition LogPrior_call (d : LogPrior) (pars : list pyval) : result xfloat :=
  match d, pars with
  | UniGaussianDist mean std, [x] =>
      x ← as_float x; Ok (UniGaussianDist_call mean std x)
  | UniformDist mean width, [x] =>
      x ← as_float x; Ok (UniformDist_call mean width x)
  | vMFDist th0 ph0 kappa, [th; ph] =>
      th ← as_float th; ph ← as_float ph;
      Ok (vMFDist_call th0 ph0 kappa th ph)
  | _, _ => Raise TypeError
  end.

(** [sample]: the sequence of values that the caller iterates over. *)

Definition UniGaussianDist_sample (mean std : Qc) (size : nat)
    (g : RandomState) : result (list Qc * RandomState) :=
  np_random_normal mean std 1 g.

Definition UniformDist_sample (mean width : Qc) (size : nat)
    (g : RandomState) : list Qc * RandomState :=
  let hw := (half * width)%Qc in
  np_random_uniform (mean - hw) (mean + hw) size g.

Definition vMFDist_sample (th0 ph0 kappa : Qc) (size : nat)
    (g : RandomState) : result (list Qc * RandomState) :=
  let '(xi, g) := np_random_uniform 0 1 size g in
  let W := map (λ x, 1 + (np_log x
               + np_log (1 - (x - 1) / x * np_exp (- two * kappa))) / kappa)%Qc
               xi in
  let '(u, g) := np_random_uniform 0 1 size g in
  let V := map (λ x, two * np_pi * x)%Qc u in
  let U := map (λ w, np_sqrt (1 - w * w))%Qc W in
  Wg ← broadcast3 W;
  Uc ← broadcast3 (zip_with Qcmult U (map np_cos V));
  Us ← broadcast3 (zip_with Qcmult U (map np_sin V));
  let vrand :=
    vadd (vadd (vmul Wg (vMF_gamma th0 ph0)) (vmul Uc (vMF_v0 th0 ph0)))
         (vmul Us (vMF_v1 th0 ph0)) in
  let '(vx, vy, vz) := vrand in
  Ok ([np_degrees (np_arcsin vz); np_degrees (np_arctan2 vy vx)], g).

Definition sample (d : LogPrior) (size : nat) (g : RandomState)
    : result (list Qc * RandomState) :=
  match d with
  | UniGaussianDist mean std => UniGaussianDist_sample mean std size g
  | UniformDist mean width => Ok (UniformDist_sample mean width size g)
  | vMFDist th0 ph0 kappa => vMFDist_sample th0 ph0 kappa size g
  end.
End Priors.

(** ** Events *)

Inductive EventClass : Set :=
  | GeoEventBase       (* the class GeoEvent itself *)
  | BasementEvent
  | StratLayerEvent
  | PlanarFaultEvent
  | FoldEvent.

#[global] Instance EventClass_eq_dec : EqDecision EventClass.
Proof. solve_decision. Defined.

Definition _pars (c : EventClass) : list string :=
  match c with
  | GeoEventBase => []
  | BasementEvent => ["density"]
  | StratLayerEvent => ["thickness"; "density"]
  | PlanarFaultEvent => ["x0"; "y0"; "nth"; "nph"; "s"]
  | FoldEvent => ["nth"; "nph"; "pitch"; "phase"; "wavelength"; "amplitude"]
  end.

(* one entry of the list of priors: the tuple (name, ..., name, dist) *)
Record prior : Set := {
  parnames : list string;
  dist : LogPrior
}.

Abbreviation loc := nat (only parsing).

Record GeoEvent : Type := {
  cls : EventClass;
  attrs : gmap string pyval;
  _priors : list prior;
  previous_event : option loc
}.

Definition Npars (self : GeoEvent) : nat := length (_pars (cls self)).

Definition getattr (self : GeoEvent) (name : string) : result pyval :=
  match attrs self !! name with
  | Some v => Ok v
  | None => Raise AttributeError
  end.

Definition setattr (self : GeoEvent) (name : string) (v : pyval) : GeoEvent :=
  {| cls := cls self;
     attrs := <[name := v]> (attrs self);
     _priors := _priors self;
     previous_event := previous_event self |}.

Definition getfloat (self : GeoEvent) (name : string) : result Qc :=
  v ← getattr self name; as_float v.

(* [getattr(self, attr) for attr in names] *)
Fixpoint getattrs (self : GeoEvent) (names : list string) : result (list pyval) :=
  match names with
  | [] => Ok []
  | a :: names' =>
      v ← getattr self a; vs ← getattrs self names'; Ok (v :: vs)
  end.

(* np.array is the identity on a list of floats; on a list that holds a
   string numpy would turn every element into a string, which is not
   modelled. *)
Definition serialize (self : GeoEvent) : result (list pyval) :=
  getattrs self (_pars (cls self)).

(* for i in range(len(args)): setattr(self, self._pars[i], args[i]) *)
Fixpoint deserialize_from (pars : list string) (args : list pyval)
    (self : GeoEvent) : result GeoEvent :=
  match args, pars with
  | [], _ => Ok self
  | a :: args', p :: pars' => deserialize_from pars' args' (setattr self p a)
  | _ :: _, [] => Raise IndexError
  end.

Definition deserialize (self : GeoEvent) (args : list pyval) : result GeoEvent :=
  deserialize_from (_pars (cls self)) args self.

(* key, val = k : a string unpacks into its characters *)
Definition unpack2 (k : string) : result (string * string) :=
  match k with
  | String a (String b EmptyString) =>
      Ok (String a EmptyString, String b EmptyString)
  | _ => Raise ValueError
  end.

(* for key, val in kwargs: iterating a dict yields its keys.  The class has
   no attribute _hypars, so the second test of the condition raises. *)
Fixpoint set_kw_attrs (kwargs : list (string * pyval)) (self : GeoEvent)
    : result GeoEvent :=
  match kwargs with
  | [] => Ok self
  | (k, _) :: rest =>
      '(key, val) ← unpack2 k;
      if bool_decide (key ∈ _pars (cls self))
      then set_kw_attrs rest (setattr self key (PyStr val))
      else Raise AttributeError
  end.

Definition set_previous_event (self : GeoEvent) (event : option loc) : GeoEvent :=
  {| cls := cls self;
     attrs := attrs self;
     _priors := _priors self;
     previous_event := event |}.

(* for parname, val in zip(parnames, vals): setattr(self, parname, val) *)
Fixpoint setattrs (names : list string) (vals : list pyval) (self : GeoEvent)
    : GeoEvent :=
  match names, vals with
  | n :: names', v :: vals' => setattrs names' vals' (setattr self n v)
  | _, _ => self
  end.

(* sorted(...) on lists of strings *)
Definition str_le (a b : string) : Prop := String.leb a b = true.

#[global] Instance str_le_dec : RelDecision str_le.
Proof. intros a b. unfold str_le. solve_decision. Defined.

Definition sorted (l : list string) : list string := merge_sort str_le l.

(* the loop of __init__ over the priors; returns ppars *)
Fixpoint check_priors (pars : list string) (ps : list prior)
    (ppars : list string) : result (list string) :=
  match ps with
  | [] => Ok ppars
  | p :: ps' =>
      if forallb (λ parname, bool_decide (parname ∈ pars)) (parnames p)
      then
        if bool_decide (length (parnames p) = Ndim (dist p))
        then check_priors pars ps' (ppars ++ parnames p)
        else Raise ValueError
      else Raise ValueError
  end.

Section Events.
Context `{Numeric}.

Fixpoint log_prior_from (ps : list prior) (self : GeoEvent) (lP : xfloat)
    : result xfloat :=
  match ps with
  | [] => Ok lP
  | p :: ps' =>
      pars ← getattrs self (parnames p);
      v ← LogPrior_call (dist p) pars;
      log_prior_from ps' self (lP + v)%X
  end.

Definition log_prior (self : GeoEvent) : result xfloat :=
  log_prior_from (_priors self) self (Fin 0%Qc).

Fixpoint set_to_prior_draw_from (ps : list prior) (self : GeoEvent)
    (g : RandomState) : result (GeoEvent * RandomState) :=
  match ps with
  | [] => Ok (self, g)
  | p :: ps' =>
      '(vals, g') ← sample (dist p) 1 g;
      set_to_prior_draw_from ps'
        (setattrs (parnames p) (PyFloat <$> vals) self) g'
  end.

Definition set_to_prior_draw (self : GeoEvent) (g : RandomState)
    : result (GeoEvent * RandomState) :=
  set_to_prior_draw_from (_priors self) self g.

(* GeoEvent.__init__, run by every subclass *)
Definition GeoEvent_init (c : EventClass) (priors : list prior)
    (kwargs : list (string * pyval)) (g : RandomState)
    : result (GeoEvent * RandomState) :=
  ppars ← check_priors (_pars c) priors [];
  if bool_decide (sorted ppars = sorted (_pars c)) then
    let self := {| cls := c; attrs := ∅; _priors := priors;
                   previous_event := None |} in
    '(self, g) ← set_to_prior_draw self g;
    self ← set_kw_attrs kwargs self;
    Ok (set_previous_event self None, g)
  else Raise ValueError.

(** [rockprops].  The recursion follows [previous_event]; [fuel] is the
    depth of the Python call stack that is left. *)
Fixpoint rockprops (fuel : nat) (σ : gmap loc GeoEvent) (l : loc)
    (r : list vec3) (h : Qc) : result (list Qc) :=
  match fuel with
  | O => Raise RecursionError
  | S fuel' =>
      match σ !! l with
      | None => Raise Unallocated
      | Some self =>
          match cls self with
          | GeoEventBase => Raise NotImplementedError
          | BasementEvent =>
              density ← getfloat self "density";
              Ok (map (λ _, density * 1)%Qc r)
          | StratLayerEvent =>
              match previous_event self with
              | None => Raise AssertionError
              | Some prev =>
                  thickness ← getfloat self "thickness";
                  let rp := map (λ p, vadd p (0, 0, thickness)%Qc) r in
                  density ← getfloat self "density";
                  let rho_up := map (λ _, density * 1)%Qc r in
                  rho_down ← rockprops fuel' σ prev rp h;
                  Ok (soft_if_then (map zcoord rp) rho_down rho_up h)
              end
          | PlanarFaultEvent =>
              match previous_event self with
              | None => Raise AssertionError
              | Some prev =>
                  x0 ← getattr self "x0";
                  y0 ← getattr self "y0";
                  nth ← getfloat self "nth";
                  nph ← getfloat self "nph";
                  let n := sph2xyz nth nph in
                  let v := cross (cross zaxis n) n in
                  s ← getfloat self "s";
                  let rdelt := vdiv (vscale s v) (l2norm v) in
                  g0 ← rockprops fuel' σ prev r h;
                  g1 ← rockprops fuel' σ prev (map (λ p, vadd p rdelt) r) h;
                  x0 ← as_float x0;
                  y0 ← as_float y0;
                  let r0 := (x0, y0, 0)%Qc in
                  Ok (soft_if_then (map (λ p, dot (vsub p r0) n) r) g0 g1 h)
              end
          | FoldEvent =>
              match previous_event self with
              | None => Raise AssertionError
              | Some prev =>
                  nth ← getfloat self "nth";
                  nph ← getfloat self "nph";
                  let n := sph2xyz nth nph in
                  pitch ← getfloat self "pitch";
                  let rpsi := np_radians pitch in
                  phase ← getfloat self "phase";
                  let rphs := np_radians phase in
                  let v0 := cross n zaxis in
                  let v0 := vdiv v0 (np_sqrt (dot v0 v0)) in
                  let v1 := cross v0 n in
                  let v1 := vdiv v1 (np_sqrt (dot v1 v1)) in
                  let v := vadd (vscale (np_sin rpsi) v0)
                                (vscale (np_cos rpsi) v1) in
                  wavelength ← getfloat self "wavelength";
                  let sinarg p :=
                    (two * np_pi * dot p n / wavelength + rphs)%Qc in
                  amplitude ← getfloat self "amplitude";
                  let rdelt p := vscale (amplitude * np_sin (sinarg p))%Qc v in
                  rockprops fuel' σ prev (map (λ p, vadd p (rdelt p)) r) h
              end
          end
      end
  end.
End Events.

(** ** Histories

    A [GeoHistory] object is its [event_list], a list of locations. *)

(* np.sum of a list of floats *)
Definition np_sum (l : list xfloat) : xfloat := foldl xadd (Fin 0%Qc) l.

Module GeoHistory.

(* the methods of one event, before the names are reused below *)
Local Abbreviation event_serialize := serialize.
Local Abbreviation event_deserialize := deserialize.
Local Abbreviation event_rockprops := rockprops.
Local Abbreviation event_set_to_prior_draw := set_to_prior_draw.

Definition add_event (σ : gmap loc GeoEvent) (event_list : list loc)
    (event : loc) : result (gmap loc GeoEvent * list loc) :=
  match σ !! event with
  | None => Raise Unallocated
  | Some e =>
      if bool_decide (length event_list = 0) then
        if bool_decide (cls e = BasementEvent)
        then Ok (σ, event_list ++ [event])
        else Raise AssertionError
      else
        (* isinstance(event, GeoEvent) holds of every event *)
        Ok (<[event := set_previous_event e (last event_list)]> σ,
            event_list ++ [event])
  end.

(* [event.serialize() for event in self.event_list] *)
Fixpoint serialize_each (σ : gmap loc GeoEvent) (event_list : list loc)
    : result (list (list pyval)) :=
  match event_list with
  | [] => Ok []
  | l :: rest =>
      match σ !! l with
      | None => Raise Unallocated
      | Some event =>
          a ← event_serialize event; arrays ← serialize_each σ rest;
          Ok (a :: arrays)
      end
  end.

(* np.concatenate refuses an empty list of arrays *)
Definition serialize (σ : gmap loc GeoEvent) (event_list : list loc)
    : result (list pyval) :=
  arrays ← serialize_each σ event_list;
  match arrays with
  | [] => Raise ValueError
  | _ => Ok (concat arrays)
  end.

Fixpoint deserialize (σ : gmap loc GeoEvent) (event_list : list loc)
    (pvec : list pyval) : result (gmap loc GeoEvent) :=
  match event_list with
  | [] => Ok σ
  | l :: rest =>
      match σ !! l with
      | None => Raise Unallocated
      | Some event =>
          let psub := take (Npars event) pvec in
          let pvec := drop (Npars event) pvec in
          event' ← event_deserialize event psub;
          deserialize (<[l := event']> σ) rest pvec
      end
  end.

Section WithNumeric.
Context `{Numeric}.

(* self.event_list[-1].rockprops(r, h) *)
Definition rockprops (fuel : nat) (σ : gmap loc GeoEvent)
    (event_list : list loc) (r : list vec3) (h : Qc) : result (list Qc) :=
  match last event_list with
  | None => Raise IndexError
  | Some l => event_rockprops fuel σ l r h
  end.

(* [event.log_prior() for event in self.event_list] *)
Fixpoint log_prior_each (σ : gmap loc GeoEvent) (event_list : list loc)
    : result (list xfloat) :=
  match event_list with
  | [] => Ok []
  | l :: rest =>
      match σ !! l with
      | None => Raise Unallocated
      | Some event =>
          lP ← log_prior event; lPs ← log_prior_each σ rest;
          Ok (lP :: lPs)
      end
  end.

Definition logprior (σ : gmap loc GeoEvent) (event_list : list loc)
    : result xfloat :=
  lPs ← log_prior_each σ event_list; Ok (np_sum lPs).

Fixpoint set_to_prior_draw (σ : gmap loc GeoEvent)
    (event_list : list loc) (g : RandomState)
    : result (gmap loc GeoEvent * RandomState) :=
  match event_list with
  | [] => Ok (σ, g)
  | l :: rest =>
      match σ !! l with
      | None => Raise Unallocated
      | Some event =>
          '(event', g') ← event_set_to_prior_draw event g;
          set_to_prior_draw (<[l := event']> σ) rest g'
      end
  end.
End WithNumeric.

End GeoHistory.

(** ** States of the store *)

Definition is_float (v : option pyval) : bool :=
  match v with Some (PyFloat _) => true | _ => false end.

(* every declared parameter of the event holds a float *)
Definition float_valued (self : GeoEvent) : bool :=
  forallb (λ a, is_float (attrs self !! a)) (_pars (cls self)).

(* every event of the list is in the store with its parameters set *)
Definition parameters_set (σ : gmap loc GeoEvent) (event_list : list loc) : bool :=
  forallb (λ l, match σ !! l with
                | Some e => float_valued e
                | None => false
                end) event_list.

Definition allocated (σ : gmap loc GeoEvent) (event_list : list loc) : bool :=
  forallb (λ l, bool_decide (is_Some (σ !! l))) event_list.

(* the loop of __init__ over the priors accepts the priors of the event *)
Definition validated (self : GeoEvent) : bool :=
  match check_priors (_pars (cls self)) (_priors self) [] with
  | Ok _ => true
  | Raise _ => false
  end.

(* the sum of the events' parameter counts *)
Definition total_Npars (σ : gmap loc GeoEvent) (event_list : list loc) : nat :=
  sum_list (map (λ l, from_option Npars 0 (σ !! l)) event_list).

(** The support of Uniform(mean, width) is the interval
    [mean - width/2, mean + width/2]; the Gaussian and the directional
    distribution have full support. *)
Definition in_support (d : LogPrior) (pars : list Qc) : bool :=
  match d, pars with
  | UniformDist mean width, [x] =>
      negb (Qcltb x (mean - half * width)%Qc)
      && negb (Qcltb (mean + half * width)%Qc x)
  | _, _ => true
  end.

(* the test of UniformDist.__call__: np.abs(x - mean) > 0.5*width *)
Definition outside_support (d : LogPrior) (pars : list Qc) : bool :=
  match d, pars with
  | UniformDist mean width, [x] => Qcltb (half * width)%Qc (np_abs (x - mean))
  | _, _ => false
  end.

(* the std of a Gaussian prior is not zero *)
Definition std_nonzero (p : prior) : bool :=
  match dist p with
  | UniGaussianDist _ std => if Qc_eq_dec std 0%Qc then false else true
  | _ => true
  end.

(* every event of the list is in the store and none of its Gaussian priors
   has std zero *)
Definition evaluable (σ : gmap loc GeoEvent) (event_list : list loc) : bool :=
  forallb (λ l, match σ !! l with
                | Some e => forallb std_nonzero (_priors e)
                | None => false
                end) event_list.

Section Densities.
Context `{Numeric}.

(* the log-density of one prior at the current values of the event *)
Definition prior_density (self : GeoEvent) (p : prior) : result xfloat :=
  pars ← getattrs self (parnames p); LogPrior_call (dist p) pars.

(* ds lists the log-densities of the priors of the event at l *)
Definition event_densities (σ : gmap loc GeoEvent) (l : loc)
    (ds : list xfloat) : Prop :=
  ∃ e, σ !! l = Some e ∧
       Forall2 (λ p d, prior_density e p = Ok d) (_priors e) ds.
End Densities.

(** ** Sample inputs

    The priors are those of [plot_subsurface_02]. *)

Definition basement_priors : list prior :=
  [ {| parnames := ["density"];
       dist := UniGaussianDist (qc 3) (Q2Qc (1 # 2)) |} ].

Definition strat_priors : list prior :=
  [ {| parnames := ["thickness"];
       dist := UniGaussianDist (qc 1900) (qc 300) |};
    {| parnames := ["density"];
       dist := UniGaussianDist (Q2Qc (5 # 2)) (Q2Qc (1 # 2)) |} ].

Definition fault_priors : list prior :=
  [ {| parnames := ["x0"]; dist := UniGaussianDist (qc (-4000)) (qc 100) |};
    {| parnames := ["y0"]; dist := UniGaussianDist (qc 0) (qc 100) |};
    {| parnames := ["nth"; "nph"]; dist := vMFDist (qc 20) (qc 0) (qc 100) |};
    {| parnames := ["s"]; dist := UniformDist (qc (-4200)) (qc 1000) |} ].

Definition basement (density : Qc) : GeoEvent :=
  {| cls := BasementEvent;
     attrs := {[ "density" := PyFloat density ]};
     _priors := basement_priors;
     previous_event := None |}.

Definition strat_layer (thickness density : Qc) (prev : option loc) : GeoEvent :=
  {| cls := StratLayerEvent;
     attrs := <[ "thickness" := PyFloat thickness ]>
                {[ "density" := PyFloat density ]};
     _priors := strat_priors;
     previous_event := prev |}.

Definition planar_fault (x0 y0 nth nph s : Qc) (prev : option loc) : GeoEvent :=
  {| cls := PlanarFaultEvent;
     attrs := <[ "x0" := PyFloat x0 ]> (<[ "y0" := PyFloat y0 ]>
              (<[ "nth" := PyFloat nth ]> (<[ "nph" := PyFloat nph ]>
              {[ "s" := PyFloat s ]})));
     _priors := fault_priors;
     previous_event := prev |}.

(* Crude rational stand-ins for the numerical library, enough to run the
   definitions on the sample inputs. *)
Definition rational_numeric : Numeric :=
  {| np_pi := Q2Qc (355 # 113);
     np_cos := λ x, (1 - half * x * x)%Qc;
     np_sin := λ x, x;
     np_sqrt := λ x, (half * (1 + x))%Qc;
     np_log := λ x, (x - 1)%Qc;
     np_exp := λ x, (1 + x)%Qc;
     np_arcsin := λ x, x;
     np_arctan2 := λ y x, y;
     ive := λ _ x, 1%Qc |}.

Definition zero_stream : RandomState :=
  {| std_normal := λ _, 0%Qc; std_uniform := λ _, half; cursor := 0 |}.

(* the chain Basement(3.0), StratLayer(100, 2.5), linked *)
Definition two_layer_store : gmap loc GeoEvent :=
  <[ 0 := basement (qc 3) ]>
    {[ 1 := strat_layer (qc 100) (Q2Qc (5 # 2)) (Some 0) ]}.

(* two events of class BasementEvent *)
Definition two_basements : gmap loc GeoEvent :=
  <[ 0 := basement (qc 3) ]> {[ 1 := basement (qc 2) ]}.

(* a basement and a fault on it with zero slip *)
Definition fault_store : gmap loc GeoEvent :=
  <[ 0 := basement (qc 3) ]>
    {[ 1 := planar_fault (qc (-4000)) (qc 0) (qc 20) (qc 0) (qc 0) (Some 0) ]}.

(* Python's default recursion limit *)
Definition recursion_limit : nat := 1000.

(* two events as their constructors leave them, not yet in a history *)
Definition unlinked_store : gmap loc GeoEvent :=
  <[ 0 := basement (qc 1) ]> {[ 1 := strat_layer (qc 1) (qc 1) None ]}.

(** The end-to-end scenario: build the chain with [add_event], set the
    parameters to density 3.0, thickness 100, density 2.5 with
    [deserialize], evaluate at [points] with scale 10. *)
Definition scenario `{Numeric} (points : list vec3) : result (list Qc) :=
  '(σ, h) ← GeoHistory.add_event unlinked_store [] 0;
  '(σ, h) ← GeoHistory.add_event σ h 1;
  σ ← GeoHistory.deserialize σ h
         [PyFloat (qc 3); PyFloat (qc 100); PyFloat (Q2Qc (5 # 2))];
  GeoHistory.rockprops recursion_limit σ h points (qc 10).

(* every element of a is within tol of the element of b at its place *)
Fixpoint allclose (tol : Qc) (a b : list Qc) : bool :=
  match a, b with
  | [], [] => true
  | x :: a', y :: b' => negb (Qcltb tol (np_abs (x - y))) && allclose tol a' b'
  | _, _ => false
  end.

(* the log-densities of the priors of fault_store, event by event *)
Definition fault_store_densities : list (list xfloat) :=
  [ [ @UniGaussianDist_call rational_numeric (qc 3) (Q2Qc (1 # 2)) (qc 3) ];
    [ @UniGaussianDist_call rational_numeric (qc (-4000)) (qc 100) (qc (-4000));
      @UniGaussianDist_call rational_numeric (qc 0) (qc 100) (qc 0);
      @vMFDist_call rational_numeric (qc 20) (qc 0) (qc 100) (qc 20) (qc 0);
      @UniformDist_call rational_numeric (qc (-4200)) (qc 1000) (qc 0) ] ].

(** ** Chains *)

(* every event of rest refers to the event before it, starting from prev *)
Fixpoint linked_from (σ : gmap loc GeoEvent) (prev : loc) (rest : list loc)
    : bool :=
  match rest with
  | [] => true
  | l :: rest' =>
      match σ !! l with
      | Some e =>
          bool_decide (previous_event e = Some prev) && linked_from σ l rest'
      | None => false
      end
  end.

(* the history that add_event builds from distinct events: the first event
   is a BasementEvent and every later one refers to the one before it *)
Definition well_formed_chain (σ : gmap loc GeoEvent) (event_list : list loc)
    : bool :=
  bool_decide (NoDup event_list) &&
  match event_list with
  | [] => true
  | l :: rest =>
      match σ !! l with
      | Some e => bool_decide (cls e = BasementEvent) && linked_from σ l rest
      | None => false
      end
  end.

(* no event of the list is of the base class GeoEvent *)
Definition concrete (σ : gmap loc GeoEvent) (event_list : list loc) : bool :=
  forallb (λ l, match σ !! l with
                | Some e => bool_decide (cls e ≠ GeoEventBase)
                | None => false
                end) event_list.

(* what deserialize and set_to_prior_draw leave alone *)
Definition skeleton (self : GeoEvent)
    : EventClass * list prior * option loc :=
  (cls self, _priors self, previous_event self).

(** ** Construction and the dictionary of parameters *)

(* a prior has as many names as its distribution has dimensions *)
Definition dims_ok (p : prior) : Prop := length (parnames p) = Ndim (dist p).

(* the two checks of __init__ on the priors of a class *)
Definition well_specified (c : EventClass) (priors : list prior) : bool :=
  match check_priors (_pars c) priors [] with
  | Ok ppars => bool_decide (sorted ppars = sorted (_pars c))
  | Raise _ => false
  end.

(* what the generator asks of a prior: np.random.normal refuses a negative
   scale, and a uniform range has low <= high *)
Definition scale_ok (p : prior) : bool :=
  match dist p with
  | UniGaussianDist _ std => negb (Qcltb std 0%Qc)
  | UniformDist _ width => negb (Qcltb width 0%Qc)
  | vMFDist _ _ _ => true
  end.

(* every event of the list is in the store, with priors that __init__
   accepts for its class and that can be drawn from *)
Definition constructed (σ : gmap loc GeoEvent) (event_list : list loc) : bool :=
  forallb (λ l, match σ !! l with
                | Some e => well_specified (cls e) (_priors e)
                            && forallb scale_ok (_priors e)
                | None => false
                end) event_list.

(* {attr: getattr(self, attr) for attr in self._pars} *)
Fixpoint get_kw_attrs_from (names : list string) (self : GeoEvent)
    (d : gmap string pyval) : result (gmap string pyval) :=
  match names with
  | [] => Ok d
  | attr :: names' =>
      v ← getattr self attr; get_kw_attrs_from names' self (<[attr := v]> d)
  end.

Definition get_kw_attrs (self : GeoEvent) : result (gmap string pyval) :=
  get_kw_attrs_from (_pars (cls self)) self ∅.

(** ** The frame of a fold *)

Section FoldFrame.
Context `{Numeric}.

(* the two lengths that FoldEvent.rockprops divides by to make its frame:
   of cross(n, [0,0,1]) and of cross(v0, n) *)
Definition fold_norms (nth nph : Qc) : Qc * Qc :=
  let n := sph2xyz nth nph in
  let v0 := cross n zaxis in
  let k0 := np_sqrt (dot v0 v0) in
  let v1 := cross (vdiv v0 k0) n in
  (k0, np_sqrt (dot v1 v1)).
End FoldFrame.

(** ** The first implementation of events: GeoFuncs

    A GeoFunc is called with the points, the scale and the flat parameter
    vector of the whole stack; it takes its own parameters from the end of
    the vector and passes the rest to [base_gfunc]. *)

Definition GeoFunc : Type := list vec3 → Qc → list Qc → result (list Qc).

(* Basement.__call__: rho = p[0] *)
Definition Basement : GeoFunc := λ r h p,
  match p with
  | [] => Raise IndexError
  | rho :: _ => Ok (map (λ _, rho * 1)%Qc r)
  end.

(* StratigraphicLayer.__call__: dz, rho = p[-2:] unpacks two values, the base
   is called with p[:-2] *)
Definition StratigraphicLayer (base_gfunc : GeoFunc) : GeoFunc := λ r h p,
  match drop (length p - 2) p with
  | [dz; rho] =>
      let rp := map (λ q, vadd q (0, 0, dz)%Qc) r in
      let rho_up := map (λ _, rho * 1)%Qc r in
      rho_down ← base_gfunc rp h (take (length p - 2) p);
      Ok (soft_if_then (map zcoord rp) rho_down rho_up h)
  | _ => Raise ValueError
  end.

(* every event of the list is a StratLayerEvent *)
Definition layered (σ : gmap loc GeoEvent) (event_list : list loc) : bool :=
  forallb (λ l, match σ !! l with
                | Some e => bool_decide (cls e = StratLayerEvent)
                | None => false
                end) event_list.

(** ** Antialiasing (blockworlds/antialias.py)

    The mesh enters through its array of cell centres [gridCC], the fitted
    Gaussian process through its [predict] function. *)

Module Antialias.

Definition Qcleb (x y : Qc) : bool := negb (Qcltb y x).

Definition vneg (a : vec3) : vec3 :=
  let '(a1, a2, a3) := a in (- a1, - a2, - a3)%Qc.

Fixpoint count_true (bs : list bool) : nat :=
  match bs with
  | [] => 0
  | b :: bs' => (if b then 1 else 0) + count_true bs'
  end.

(* the quotient c/N of two counts, without rounding *)
Definition ratio (c N : nat) : xfloat :=
  (Fin (qc (Z.of_nat c)) / Fin (qc (Z.of_nat N)))%X.

(* np.mean of an array of booleans; 0/0 on the empty array *)
Definition np_mean (bs : list bool) : xfloat :=
  ratio (count_true bs) (length bs).

Definition partial_volume (gridCC : list vec3) (r0 n : vec3) : xfloat :=
  let mu_prod := map (λ p, dot (vsub p r0) n) gridCC in
  let b1 := np_mean (map (λ m, Qcltb m 0%Qc) mu_prod) in
  let b2 := np_mean (map (λ m, Qcleb m 0%Qc) mu_prod) in
  (Fin half * (b1 + b2))%X.

(* Y[Y < 0] = 0.0; Y[Y > 1] = 1.0 *)
Definition clip01 (Y : list Qc) : list Qc :=
  map (λ y, let y := if Qcltb y 0%Qc then 0%Qc else y in
            if Qcltb 1%Qc y then 1%Qc else y) Y.

(* GaussianProcessAntialiasing.__init__ keeps N_features if it is 1, 2 or 3 *)
Definition GaussianProcessAntialiasing_init (N_features : nat) : result nat :=
  if bool_decide (N_features ∈ [1; 2; 3]) then Ok N_features
  else Raise IndexError.

(* X[:,j] = c on rows of N_features columns *)
Definition set_column (j : nat) (c : Qc) (X : list (list Qc)) : list (list Qc) :=
  map (λ row, <[j := c]> row) X.

Definition predict_1d (gp_predict : list (list Qc) → list Qc)
    (N_features : nat) (d : list Qc) : list Qc :=
  let X := map (λ di, replicate N_features di) d in
  let X := if bool_decide (2 ≤ N_features)
           then set_column 1 (Q2Qc (44 # 100)) X else X in
  let X := if bool_decide (3 ≤ N_features)
           then set_column 2 (Q2Qc (64 # 100)) X else X in
  clip01 (gp_predict X).

(* parpV1 of compare_antialiasing: piecewise linear interpolation *)
Definition parpV1 (x : list Qc) : list Qc :=
  map (λ xi, let r := (1 * xi + half)%Qc in
             let r := if Qcltb r 0%Qc then 0%Qc else r in
             if Qcltb 1%Qc r then 1%Qc else r) x.

End Antialias.

(** ** The same code on IEEE doubles

    [float] is the kernel's binary64 type with the IEEE operations, rounding
    to nearest even.  The functions below repeat the source operation by
    operation; they are run where a result depends on rounding. *)

Module Binary64.

Definition soft_step (h d y0 y1 : float) : float :=
  let result := (0.5 * (y0 + y1) - (y0 - y1) * d / h)%float in
  let result := if (d <? -0.5 * h)%float then y0 else result in
  if (0.5 * h <? d)%float then y1 else result.

Fixpoint soft_if_then (d y0 y1 : list float) (h : float) : list float :=
  match d, y0, y1 with
  | di :: d', a :: y0', b :: y1' =>
      soft_step h di a b :: soft_if_then d' y0' y1' h
  | _, _, _ => []
  end.

(* np.random.uniform(low, high) from one deviate u of [0, 1) *)
Definition np_random_uniform (low high u : float) : float :=
  (low + (high - low) * u)%float.

(* UniformDist.sample, one draw *)
Definition UniformDist_sample (mean width u : float) : float :=
  let hw := (0.5 * width)%float in
  np_random_uniform (mean - hw) (mean + hw) u.

(* the test of UniformDist.__call__: np.abs(x - mean) > 0.5*width *)
Definition outside_support (mean width x : float) : bool :=
  (0.5 * width <? abs (x - mean))%float.

Definition of_nat (n : nat) : float :=
  PrimFloat.of_uint63 (Uint63.of_Z (Z.of_nat n)).

(* np.mean of an array of booleans *)
Definition np_mean (bs : list bool) : float :=
  (of_nat (Antialias.count_true bs) / of_nat (length bs))%float.

Definition vec3 : Type := float * float * float.

Definition vsub (a b : vec3) : vec3 :=
  let '(a1, a2, a3) := a in let '(b1, b2, b3) := b in
  (a1 - b1, a2 - b2, a3 - b3)%float.

Definition vneg (a : vec3) : vec3 :=
  let '(a1, a2, a3) := a in (- a1, - a2, - a3)%float.

Definition dot (a b : vec3) : float :=
  let '(a1, a2, a3) := a in let '(b1, b2, b3) := b in
  (a1 * b1 + a2 * b2 + a3 * b3)%float.

Definition partial_volume (gridCC : list vec3) (r0 n : vec3) : float :=
  let mu_prod := map (λ p, dot (vsub p r0) n) gridCC in
  let b1 := np_mean (map (λ m, (m <? 0)%float) mu_prod) in
  let b2 := np_mean (map (λ m, (m <=? 0)%float) mu_prod) in
  (0.5 * (b1 + b2))%float.

(* the doubles that Python reads for 0.1 and 0.7 *)
Definition d0_1 : float := 0x1.999999999999ap-4%float.
Definition d0_7 : float := 0x1.6666666666666p-1%float.

(* three cell centres on the z axis, one of them below the plane z = 0 *)
Definition grid3 : list vec3 :=
  [(0, 0, -0.25)%float; (0, 0, 0.25)%float; (0, 0, 0.5)%float].

End Binary64.

(** ** More sample inputs *)

(* a uniform prior of width zero, and one on the interval [2, 3] *)
Definition pinned_prior : prior :=
  {| parnames := ["density"]; dist := UniformDist (qc 3) 0%Qc |}.

Definition boxed_prior : prior :=
  {| parnames := ["density"]; dist := UniformDist (Q2Qc (5 # 2)) 1%Qc |}.

(* a basement whose density sits at the mean of its prior of width zero *)
Definition pinned_basement : GeoEvent :=
  {| cls := BasementEvent;
     attrs := {[ "density" := PyFloat (qc 3) ]};
     _priors := [pinned_prior];
     previous_event := None |}.

(* a layer whose density 4 lies outside its prior on [2, 3] *)
Definition heavy_layer : GeoEvent :=
  {| cls := StratLayerEvent;
     attrs := <[ "thickness" := PyFloat (qc 100) ]>
                {[ "density" := PyFloat (qc 4) ]};
     _priors := [ {| parnames := ["thickness"];
                     dist := UniGaussianDist (qc 1900) (qc 300) |};
                  boxed_prior ];
     previous_event := Some 0 |}.

Definition zero_width_store : gmap loc GeoEvent :=
  <[ 0 := pinned_basement ]> {[ 1 := heavy_layer ]}.

Definition fold_priors : list prior :=
  [ {| parnames := ["nth"; "nph"]; dist := vMFDist (qc 0) (qc 0) (qc 100) |};
    {| parnames := ["pitch"]; dist := UniGaussianDist (qc 0) (qc 30) |};
    {| parnames := ["phase"]; dist := UniformDist (qc 0) (qc 360) |};
    {| parnames := ["wavelength"]; dist := UniGaussianDist (qc 3000) (qc 300) |};
    {| parnames := ["amplitude"]; dist := UniGaussianDist (qc 300) (qc 50) |} ].

Definition fold (nth nph pitch phase wavelength amplitude : Qc)
    (prev : option loc) : GeoEvent :=
  {| cls := FoldEvent;
     attrs := <[ "nth" := PyFloat nth ]> (<[ "nph" := PyFloat nph ]>
              (<[ "pitch" := PyFloat pitch ]> (<[ "phase" := PyFloat phase ]>
              (<[ "wavelength" := PyFloat wavelength ]>
              {[ "amplitude" := PyFloat amplitude ]}))));
     _priors := fold_priors;
     previous_event := prev |}.

(* a basement and a fold on it with zero amplitude *)
Definition fold_store : gmap loc GeoEvent :=
  <[ 0 := basement (qc 3) ]>
    {[ 1 := fold (qc 0) (qc 0) (qc 0) (qc 0) (qc 3000) (qc 0) (Some 0) ]}.

Definition sample_points : list vec3 :=
  [(0, 0, qc (-200))%Qc; (0, 0, 0)%Qc; (qc 1, qc 2, qc 200)].

(* three cell centres of a mesh *)
Definition sample_grid : list vec3 :=
  [(0, 0, Q2Qc (-1 # 4))%Qc; (0, 0, 0)%Qc; (0, 0, Q2Qc (1 # 4))%Qc].

(* a stand-in for a fitted Gaussian process: twice the first feature *)
Definition sample_gp (X : list (list Qc)) : list Qc :=
  map (λ row, two * default 0 (head row))%Qc X.

(** * Properties *)

(** ** Arithmetic *)

Lemma Qcltb_lt (x y : Qc) : Qcltb x y = true ↔ (x < y)%Qc.
Proof.
  unfold Qcltb. rewrite Qclt_alt.
  destruct (x ?= y)%Qc; split; congruence.
Qed.

Lemma Qcltb_ge (x y : Qc) : Qcltb x y = false ↔ (y <= x)%Qc.
Proof.
  rewrite <- not_true_iff_false, Qcltb_lt. split.
  - apply Qcnot_lt_le.
  - intros Hle Hlt. exact (Qcle_not_lt _ _ Hle Hlt).
Qed.

Lemma Qc_eq_Qeq (x y : Qc) : x = y → (x == y)%Q.
Proof. intros ->. reflexivity. Qed.

(* Turn a goal on canonical rationals into one on plain rationals. *)
Ltac qc2q :=
  unfold half, two, qc in *;
  repeat match goal with
         | H : @eq Qc _ _ |- _ => apply Qc_eq_Qeq in H
         | |- @eq Qc _ _ => apply Qc_is_canon
         end;
  unfold Qclt, Qcle, Qcdiv, Qcminus, Qcinv, Qcopp, Qcplus, Qcmult, Q2Qc in *;
  cbn [this] in *;
  rewrite ?Qred_correct in *.

(* Evaluate both sides; numbers are compared as fractions. *)
Ltac qc_compute :=
  vm_compute;
  repeat first [ apply Qc_is_canon; reflexivity | reflexivity | f_equal ].

Lemma Qc_nonzero (x : Qc) : (0 < x)%Qc → ¬ (x == 0)%Q.
Proof. qc2q. intros Hpos Hz. rewrite Hz in Hpos. lra. Qed.

(** ** The smooth step *)

Lemma soft_if_then_lookup (d y0 y1 : list Qc) (h : Qc) (i : nat) (di a b : Qc) :
  d !! i = Some di → y0 !! i = Some a → y1 !! i = Some b →
  soft_if_then d y0 y1 h !! i = Some (soft_step h di a b).
Proof.
  revert y0 y1 i.
  induction d as [|x d IH]; intros [|u y0] [|w y1] [|i]; try discriminate;
    cbn; intros Hd Ha Hb.
  - congruence.
  - eauto.
Qed.

Lemma soft_step_low (h d a b : Qc) : (d < - half * h)%Qc → (0 < h)%Qc →
  soft_step h d a b = a.
Proof.
  intros Hd Hh. unfold soft_step.
  assert (Qcltb (half * h) d = false) as ->.
  { apply Qcltb_ge. revert Hd Hh. qc2q. intros. lra. }
  apply Qcltb_lt in Hd. by rewrite Hd.
Qed.

Lemma soft_step_high (h d a b : Qc) : (half * h < d)%Qc → soft_step h d a b = b.
Proof. intros Hd. unfold soft_step. apply Qcltb_lt in Hd. by rewrite Hd. Qed.

Lemma soft_step_ramp (h d a b : Qc) :
  (- half * h <= d)%Qc → (d <= half * h)%Qc →
  soft_step h d a b = (half * (a + b) - (a - b) * d / h)%Qc.
Proof.
  intros Hlo Hhi. unfold soft_step.
  apply Qcltb_ge in Hlo, Hhi. by rewrite Hlo, Hhi.
Qed.

(** C4 (as the code has it).  The two masks of [soft_if_then] are strict.
    With a positive transition scale [h] and arrays of one length, element
    [i] of [soft_if_then d y0 y1 h] is exactly [y0 !! i] when
    [d !! i < -0.5*h] and exactly [y1 !! i] when [d !! i > 0.5*h]; when
    [-0.5*h <= d !! i <= 0.5*h], the two ends included, it is the linear
    interpolation [0.5*(y0+y1) - (y0-y1)*d/h]; at [d !! i = 0] it is
    [0.5*(y0+y1)].  At [d !! i = -0.5*h] and [d !! i = 0.5*h] the value is
    therefore the computed ramp, which equals the limit only up to
    rounding. *)
Theorem soft_if_then_limits_and_ramp
    (d y0 y1 : list Qc) (h : Qc) (i : nat) (di a b : Qc) :
  (0 < h)%Qc →
  length y0 = length d → length y1 = length d →
  d !! i = Some di → y0 !! i = Some a → y1 !! i = Some b →
  ∃ ri, soft_if_then d y0 y1 h !! i = Some ri ∧
    ((di < - half * h)%Qc → ri = a) ∧
    ((half * h < di)%Qc → ri = b) ∧
    ((- half * h <= di)%Qc → (di <= half * h)%Qc →
       ri = (half * (a + b) - (a - b) * di / h)%Qc) ∧
    (di = 0%Qc → ri = (half * (a + b))%Qc).
Proof.
  intros Hh _ _ Hd Ha Hb. exists (soft_step h di a b).
  split; [by apply soft_if_then_lookup|].
  repeat split.
  - intros Hlt. by apply soft_step_low.
  - intros Hlt. by apply soft_step_high.
  - intros Hlo Hhi. by apply soft_step_ramp.
  - intros ->. rewrite soft_step_ramp.
    + qc2q. field. by apply Qc_nonzero.
    + revert Hh. qc2q. intros. lra.
    + revert Hh. qc2q. intros. lra.
Qed.

(** C4, counterexample.  At [d = -h/2] the claim promises
    exactly [y0].  The mask [d < -0.5*h] is false there, so the ramp is
    returned, and on doubles the ramp is rounded: for [d = -5], [y0 = 0.1],
    [y1 = 0.7], [h = 10] the code returns 0.09999999999999998, which is not
    [y0] and lies below both limits. *)
Lemma soft_if_then_boundary_is_rounded :
  (-5 <=? - (10 / 2))%float = true ∧
  Binary64.soft_if_then [(-5)%float] [Binary64.d0_1] [Binary64.d0_7] 10%float
    = [0x1.9999999999998p-4%float] ∧
  (0x1.9999999999998p-4 <? Binary64.d0_1)%float = true ∧
  Binary64.soft_if_then [(-5)%float] [Binary64.d0_1] [Binary64.d0_7] 10%float
    ≠ [Binary64.d0_1].
Proof.
  split; [reflexivity|]. split; [reflexivity|]. split; [reflexivity|].
  intros Heq.
  apply (f_equal (λ l, match l with
                       | [x] => (x <? Binary64.d0_1)%float
                       | _ => false
                       end)) in Heq.
  vm_compute in Heq. discriminate.
Qed.

(** ** Attributes and the parameter vector of one event *)

Lemma bind_Ok {A B} (m : result A) (f : A → result B) (b : B) :
  m ≫= f = Ok b ↔ ∃ a, m = Ok a ∧ f a = Ok b.
Proof.
  destruct m as [a|e]; cbn; split.
  - eauto.
  - by intros (? & [= ->] & ?).
  - discriminate.
  - by intros (? & [=] & ?).
Qed.

Lemma setattr_id (self : GeoEvent) (a : string) (v : pyval) :
  getattr self a = Ok v → setattr self a v = self.
Proof.
  unfold getattr, setattr. destruct self as [c m ps prev]; cbn.
  destruct (m !! a) eqn:Hm; [|discriminate]. intros [= ->].
  by rewrite insert_id.
Qed.

Lemma getattr_setattr_ne (self : GeoEvent) (a b : string) (v : pyval) :
  a ≠ b → getattr (setattr self a v) b = getattr self b.
Proof. intros Hne. unfold getattr, setattr; cbn. by rewrite lookup_insert_ne. Qed.

Lemma getattr_setattr_eq (self : GeoEvent) (a : string) (v : pyval) :
  getattr (setattr self a v) a = Ok v.
Proof. unfold getattr, setattr; cbn. by rewrite lookup_insert_eq. Qed.

Lemma getattrs_length (self : GeoEvent) (names : list string) (vs : list pyval) :
  getattrs self names = Ok vs → length vs = length names.
Proof.
  revert vs. induction names as [|a names IH]; cbn; intros vs.
  - by intros [= <-].
  - intros (v & _ & (vs' & Hvs & [= <-])%bind_Ok)%bind_Ok.
    cbn. f_equal. by apply IH.
Qed.

Lemma getattrs_set (self : GeoEvent) (names : list string) :
  (∀ a, a ∈ names → is_Some (attrs self !! a)) →
  ∃ vs, getattrs self names = Ok vs.
Proof.
  induction names as [|a names IH]; cbn; intros Hset; [by eexists|].
  destruct (Hset a) as [v Hv]; [left|].
  destruct IH as [vs Hvs]; [intros b Hb; apply Hset; by right|].
  exists (v :: vs). unfold getattr at 1. by rewrite Hv, Hvs.
Qed.

(* Writing back the values just read changes nothing. *)
Lemma deserialize_from_own (self : GeoEvent) (pars : list string) (vs : list pyval) :
  getattrs self pars = Ok vs → deserialize_from pars vs self = Ok self.
Proof.
  revert vs. induction pars as [|a pars IH]; cbn; intros vs.
  - by intros [= <-].
  - intros (v & Hv & (vs' & Hvs & [= <-])%bind_Ok)%bind_Ok.
    cbn. rewrite (setattr_id _ _ _ Hv). by apply IH.
Qed.

Lemma deserialize_from_cls (pars : list string) (args : list pyval)
    (self self' : GeoEvent) :
  deserialize_from pars args self = Ok self' → cls self' = cls self.
Proof.
  revert args self. induction pars as [|a pars IH]; intros [|v args] self; cbn;
    try discriminate; try by intros [= <-].
  intros Hd. by rewrite (IH _ _ Hd).
Qed.

Lemma deserialize_from_succeeds (pars : list string) (args : list pyval)
    (self : GeoEvent) :
  length args ≤ length pars → ∃ self', deserialize_from pars args self = Ok self'.
Proof.
  revert args self. induction pars as [|a pars IH]; intros [|v args] self; cbn;
    intros Hlen; try by eexists.
  - lia.
  - apply IH. lia.
Qed.

Lemma deserialize_from_other (pars : list string) (args : list pyval)
    (self self' : GeoEvent) (b : string) :
  b ∉ pars → deserialize_from pars args self = Ok self' →
  getattr self' b = getattr self b.
Proof.
  revert args self. induction pars as [|a pars IH]; intros [|v args] self; cbn;
    intros Hb; try discriminate; try by intros [= <-].
  intros Hd. rewrite (IH _ _ ltac:(set_solver) Hd).
  apply getattr_setattr_ne. set_solver.
Qed.

(* After deserialize with a full vector, the event reads back that vector. *)
Lemma deserialize_from_read (pars : list string) (args : list pyval)
    (self self' : GeoEvent) :
  NoDup pars → length args = length pars →
  deserialize_from pars args self = Ok self' → getattrs self' pars = Ok args.
Proof.
  revert args self. induction pars as [|a pars IH]; intros [|v args] self; cbn;
    intros Hnd Hlen; try discriminate; try done.
  apply NoDup_cons in Hnd as [Ha Hnd]. intros Hd.
  rewrite (deserialize_from_other _ _ _ _ _ Ha Hd), getattr_setattr_eq. cbn.
  rewrite (IH args (setattr self a v)); [done..| lia | done].
Qed.

Lemma _pars_NoDup (c : EventClass) : NoDup (_pars c).
Proof. destruct c; apply (bool_decide_unpack _); by vm_compute. Qed.

Lemma serialize_length (self : GeoEvent) (vs : list pyval) :
  serialize self = Ok vs → length vs = Npars self.
Proof. apply getattrs_length. Qed.

Lemma deserialize_serialize_event (self : GeoEvent) (vs : list pyval) :
  serialize self = Ok vs → deserialize self vs = Ok self.
Proof. apply deserialize_from_own. Qed.

Lemma serialize_deserialize_event (self self' : GeoEvent) (args : list pyval) :
  length args = Npars self → deserialize self args = Ok self' →
  serialize self' = Ok args.
Proof.
  intros Hlen Hd. unfold serialize.
  rewrite (deserialize_from_cls _ _ _ _ Hd).
  eapply deserialize_from_read; [apply _pars_NoDup | done | done].
Qed.

(** ** The parameter vector of a history *)

Lemma float_valued_set (self : GeoEvent) :
  float_valued self = true →
  ∀ a, a ∈ _pars (cls self) → is_Some (attrs self !! a).
Proof.
  unfold float_valued. rewrite forallb_forall. intros Hall a Ha.
  apply list_elem_of_In, Hall in Ha.
  destruct (attrs self !! a); [by eexists | discriminate].
Qed.

Lemma parameters_set_cons (σ : gmap loc GeoEvent) (l : loc) (rest : list loc) :
  parameters_set σ (l :: rest) = true →
  (∃ e, σ !! l = Some e ∧ float_valued e = true) ∧ parameters_set σ rest = true.
Proof.
  cbn. intros [Hl Hrest]%andb_true_iff. split; [|done].
  destruct (σ !! l) as [e|]; [eauto | discriminate].
Qed.

Lemma allocated_cons (σ : gmap loc GeoEvent) (l : loc) (rest : list loc) :
  allocated σ (l :: rest) = true ↔ is_Some (σ !! l) ∧ allocated σ rest = true.
Proof. cbn. by rewrite andb_true_iff, bool_decide_eq_true. Qed.

Lemma allocated_insert (σ : gmap loc GeoEvent) (l : loc) (e : GeoEvent)
    (event_list : list loc) :
  allocated σ event_list = true → allocated (<[l := e]> σ) event_list = true.
Proof.
  induction event_list as [|k rest IH]; [done|].
  rewrite !allocated_cons. intros [Hk Hrest]. split; [|by apply IH].
  destruct (decide (l = k)) as [->|Hne].
  - rewrite lookup_insert_eq. by eexists.
  - by rewrite lookup_insert_ne.
Qed.

Lemma serialize_each_length (σ : gmap loc GeoEvent) (event_list : list loc)
    (arrays : list (list pyval)) :
  GeoHistory.serialize_each σ event_list = Ok arrays →
  length arrays = length event_list.
Proof.
  revert arrays. induction event_list as [|l rest IH]; cbn; intros arrays.
  - by intros [= <-].
  - destruct (σ !! l); [|discriminate].
    intros (a & _ & (arrays' & Hrest & [= <-])%bind_Ok)%bind_Ok.
    cbn. f_equal. by apply IH.
Qed.

(* Reading every event and writing the values back leaves the store as
   it is, whatever follows the values in the vector. *)
Lemma roundtrip_each (σ : gmap loc GeoEvent) (event_list : list loc)
    (extra : list pyval) :
  parameters_set σ event_list = true →
  ∃ arrays, GeoHistory.serialize_each σ event_list = Ok arrays ∧
            GeoHistory.deserialize σ event_list (concat arrays ++ extra) = Ok σ.
Proof.
  induction event_list as [|l rest IH]; intros Hset; [by exists []|].
  apply parameters_set_cons in Hset as [(e & Hl & He) Hrest].
  destruct (getattrs_set e (_pars (cls e)) (float_valued_set e He)) as [a Ha].
  destruct (IH Hrest) as (arrays & Hser & Hdes).
  exists (a :: arrays). cbn. rewrite Hl. cbn.
  change (getattrs e (_pars (cls e))) with (serialize e) in Ha.
  rewrite Ha, Hser. cbn. split; [done|].
  rewrite <- (assoc_L (++)).
  rewrite take_app_length', drop_app_length'
    by (symmetry; by apply serialize_length).
  rewrite (deserialize_serialize_event _ _ Ha). cbn.
  by rewrite insert_id.
Qed.

(** C1.  For a history whose events have their parameters set, [serialize]
    returns the concatenation of the events' parameter vectors and
    [deserialize] of that vector returns the store unchanged, so every
    parameter keeps its value.  The empty history has no vector:
    [np.concatenate] raises on it, and the store is untouched as well. *)
Theorem serialize_deserialize_roundtrip
    (σ : gmap loc GeoEvent) (event_list : list loc) :
  parameters_set σ event_list = true →
  (event_list ≠ [] →
     ∃ pvec, GeoHistory.serialize σ event_list = Ok pvec ∧
             length pvec = total_Npars σ event_list ∧
             GeoHistory.deserialize σ event_list pvec = Ok σ) ∧
  (event_list = [] → GeoHistory.serialize σ event_list = Raise ValueError).
Proof.
  intros Hset. split; [|by intros ->].
  intros Hne. destruct (roundtrip_each σ event_list [] Hset) as (arrays & Hser & Hdes).
  exists (concat arrays). rewrite (right_id_L [] (++)) in Hdes.
  unfold GeoHistory.serialize. rewrite Hser. cbn.
  pose proof (serialize_each_length _ _ _ Hser) as Hlen.
  destruct arrays as [|a arrays].
  { destruct event_list; [done | discriminate]. }
  split; [done|]. split; [|done].
  clear Hdes Hne Hlen. revert Hser. generalize (a :: arrays). clear.
  induction event_list as [|l rest IH]; cbn; intros arrays.
  - by intros [= <-].
  - destruct (σ !! l) as [e|]; [|discriminate]. cbn.
    intros (v & Hv & (arrays' & Hrest & [= <-])%bind_Ok)%bind_Ok.
    cbn. rewrite length_app, (serialize_length _ _ Hv). f_equal. by apply IH.
Qed.

Lemma serialize_deserialize_roundtrip_witness :
  parameters_set two_layer_store [0; 1] = true ∧
  ∃ pvec, GeoHistory.serialize two_layer_store [0; 1] = Ok pvec ∧
          length pvec = total_Npars two_layer_store [0; 1] ∧
          GeoHistory.deserialize two_layer_store [0; 1] pvec = Ok two_layer_store.
Proof.
  split; [reflexivity|].
  refine (proj1 (serialize_deserialize_roundtrip two_layer_store [0; 1] _) _);
    [reflexivity | discriminate].
Defined.

Lemma deserialize_succeeds (σ : gmap loc GeoEvent) (event_list : list loc)
    (pvec : list pyval) :
  allocated σ event_list = true →
  ∃ σ', GeoHistory.deserialize σ event_list pvec = Ok σ'.
Proof.
  revert σ pvec. induction event_list as [|l rest IH]; intros σ pvec; [by eexists|].
  intros [[e Hl] Hrest]%allocated_cons. cbn. rewrite Hl.
  destruct (deserialize_from_succeeds (_pars (cls e)) (take (Npars e) pvec) e)
    as [e' He'].
  { rewrite length_take. unfold Npars. lia. }
  unfold deserialize. rewrite He'. cbn. by apply IH, allocated_insert.
Qed.

(* deserialize touches the events of the list only *)
Lemma deserialize_frame (σ σ' : gmap loc GeoEvent) (event_list : list loc)
    (pvec : list pyval) (k : loc) :
  k ∉ event_list → GeoHistory.deserialize σ event_list pvec = Ok σ' →
  σ' !! k = σ !! k.
Proof.
  revert σ pvec. induction event_list as [|l rest IH]; intros σ pvec Hk; cbn.
  - by intros [= <-].
  - destruct (σ !! l) as [e|] eqn:Hl; [|discriminate].
    intros (e' & _ & Hrest)%bind_Ok.
    rewrite (IH _ _ ltac:(set_solver) Hrest).
    apply lookup_insert_ne. set_solver.
Qed.

Lemma total_Npars_insert (σ : gmap loc GeoEvent) (l : loc) (e : GeoEvent)
    (event_list : list loc) :
  l ∉ event_list →
  total_Npars (<[l := e]> σ) event_list = total_Npars σ event_list.
Proof.
  unfold total_Npars. induction event_list as [|k rest IH]; [done|].
  intros Hl. cbn. rewrite lookup_insert_ne by set_solver.
  f_equal. apply IH. set_solver.
Qed.

(* On a chain of distinct events, deserialize of a vector of the matching
   length stores the vector, chunk by chunk in chain order. *)
Lemma deserialize_then_serialize_each (σ σ' : gmap loc GeoEvent)
    (event_list : list loc) (pvec : list pyval) :
  NoDup event_list → length pvec = total_Npars σ event_list →
  GeoHistory.deserialize σ event_list pvec = Ok σ' →
  ∃ arrays, GeoHistory.serialize_each σ' event_list = Ok arrays ∧
            concat arrays = pvec.
Proof.
  revert σ pvec. induction event_list as [|l rest IH]; intros σ pvec Hnd Hlen; cbn.
  - intros _. exists []. split; [done|]. by destruct pvec.
  - apply NoDup_cons in Hnd as [Hl Hnd].
    unfold total_Npars in Hlen; cbn in Hlen.
    destruct (σ !! l) as [e|] eqn:He; [|discriminate]. cbn in Hlen.
    intros (e' & He' & Hrest)%bind_Ok.
    destruct (IH (<[l := e']> σ) (drop (Npars e) pvec) Hnd) as (arrays & Hser & Hcat);
      [|done|].
    { rewrite total_Npars_insert, length_drop by done.
      unfold total_Npars. lia. }
    rewrite (deserialize_frame _ _ _ _ _ Hl Hrest), lookup_insert_eq.
    rewrite (serialize_deserialize_event e e' (take (Npars e) pvec)); [| |done].
    + cbn. rewrite Hser. cbn. exists (take (Npars e) pvec :: arrays).
      split; [done|]. cbn. by rewrite Hcat, take_drop.
    + rewrite length_take. lia.
Qed.




(** ** Appending events *)

Lemma last_nonempty {A} (l : list A) : l ≠ [] → ∃ x, last l = Some x.
Proof.
  destruct l as [|a l] using rev_ind; [done|].
  intros _. exists a. by rewrite last_snoc.
Qed.

(** C3 (as the code has it).  For an event that is in the store,
    [add_event] fails exactly when the history is empty and the event is not
    a [BasementEvent].  On an empty history a [BasementEvent] is appended as
    it is; on a non-empty history every event, a [BasementEvent] included, is
    linked to the current last event and appended. *)
Theorem add_event_outcomes
    (σ : gmap loc GeoEvent) (event_list : list loc) (event : loc) (e : GeoEvent) :
  σ !! event = Some e →
  (fails (GeoHistory.add_event σ event_list event)
     ↔ event_list = [] ∧ cls e ≠ BasementEvent) ∧
  (event_list = [] → cls e = BasementEvent →
     GeoHistory.add_event σ event_list event = Ok (σ, [event])) ∧
  (∀ prev, last event_list = Some prev →
     GeoHistory.add_event σ event_list event
       = Ok (<[event := set_previous_event e (Some prev)]> σ,
             event_list ++ [event])).
Proof.
  intros He. unfold GeoHistory.add_event. rewrite He.
  split; [|split].
  - destruct event_list as [|l rest]; cbn [length].
    + rewrite bool_decide_eq_true_2 by done. case_bool_decide as Hc.
      * split; [intros [? [=]] | intros [_ Hn]; by destruct Hn].
      * split; [done | intros _; by eexists].
    + rewrite bool_decide_eq_false_2 by done.
      split; [intros [? [=]] | intros [[=] _]].
  - intros -> Hc. cbn [length]. by rewrite !bool_decide_eq_true_2.
  - intros prev Hlast. destruct event_list as [|l rest]; [done|].
    cbn [length]. rewrite bool_decide_eq_false_2 by done. by rewrite Hlast.
Qed.

Lemma add_event_outcomes_witness :
  two_layer_store !! 1 = Some (strat_layer (qc 100) (Q2Qc (5 # 2)) (Some 0)) ∧
  (fails (GeoHistory.add_event two_layer_store [] 1)
     ↔ [] = ([] : list loc)
       ∧ cls (strat_layer (qc 100) (Q2Qc (5 # 2)) (Some 0)) ≠ BasementEvent).
Proof.
  split; [reflexivity|].
  refine (proj1 (add_event_outcomes two_layer_store [] 1 _ _)). reflexivity.
Defined.

(** C3, counterexample.  Appending a second [BasementEvent] to a history
    that already starts with one does not fail: the event is linked to the
    first one and appended. *)
Lemma add_event_accepts_second_basement :
  cls (basement (qc 2)) = BasementEvent ∧
  GeoHistory.add_event two_basements [0] 1
    = Ok (<[ 1 := set_previous_event (basement (qc 2)) (Some 0) ]> two_basements,
          [0; 1]) ∧
  ¬ fails (GeoHistory.add_event two_basements [0] 1).
Proof.
  split; [done|]. split; [reflexivity|]. intros [x [=]].
Qed.

(** ** Rock properties *)

Lemma soft_if_then_length (d y0 y1 : list Qc) (h : Qc) :
  length y0 = length d → length y1 = length d →
  length (soft_if_then d y0 y1 h) = length d.
Proof.
  revert y0 y1. induction d as [|x d IH]; intros [|a y0] [|b y1]; cbn;
    try done.
  intros [=] [=]. f_equal. by apply IH.
Qed.

Lemma soft_step_same (h d y : Qc) : soft_step h d y y = y.
Proof.
  unfold soft_step.
  assert ((half * (y + y) - (y - y) * d / h)%Qc = y) as ->.
  { unfold Qcdiv. qc2q. ring. }
  by repeat case_match.
Qed.

(* blending a field with itself gives that field *)
Lemma soft_if_then_same (d g : list Qc) (h : Qc) :
  length d = length g → soft_if_then d g g h = g.
Proof.
  revert g. induction d as [|x d IH]; intros [|y g]; cbn; try done.
  intros [=]. by rewrite soft_step_same, IH.
Qed.

Lemma vadd_zero_slip (p v : vec3) (n : Qc) : vadd p (vdiv (vscale 0%Qc v) n) = p.
Proof.
  destruct p as [[p1 p2] p3], v as [[v1 v2] v3]. cbn.
  repeat f_equal; unfold Qcdiv; ring.
Qed.

Section Rockprops.
Context `{Numeric}.

(* one density for each query point *)
Lemma rockprops_length (fuel : nat) (σ : gmap loc GeoEvent) (l : loc)
    (r : list vec3) (h : Qc) (g : list Qc) :
  rockprops fuel σ l r h = Ok g → length g = length r.
Proof.
  revert l r g. induction fuel as [|fuel IH]; intros l r g; [discriminate|].
  cbn. destruct (σ !! l) as [self|]; [|discriminate].
  destruct (cls self); try discriminate.
  - intros (density & _ & [= <-])%bind_Ok. by rewrite length_map.
  - destruct (previous_event self) as [prev|]; [|discriminate].
    intros (thickness & _ & (density & _ & (rho_down & Hdown & [= <-])%bind_Ok)
              %bind_Ok)%bind_Ok.
    apply IH in Hdown. rewrite length_map in Hdown.
    rewrite soft_if_then_length; rewrite !length_map; done.
  - destruct (previous_event self) as [prev|]; [|discriminate].
    intros (x0 & _ & (y0 & _ & (nth & _ & (nph & _ & (s & _ & (g0 & Hg0 &
             (g1 & Hg1 & (x0' & _ & (y0' & _ & [= <-])%bind_Ok)%bind_Ok)
             %bind_Ok)%bind_Ok)%bind_Ok)%bind_Ok)%bind_Ok)%bind_Ok)%bind_Ok.
    apply IH in Hg0, Hg1. rewrite length_map in Hg1.
    rewrite soft_if_then_length; rewrite !length_map; done.
  - destruct (previous_event self) as [prev|]; [|discriminate].
    intros (nth & _ & (nph & _ & (pitch & _ & (phase & _ & (wavelength & _ &
             (amplitude & _ & Hprev)%bind_Ok)%bind_Ok)%bind_Ok)%bind_Ok)
             %bind_Ok)%bind_Ok.
    apply IH in Hprev. by rewrite length_map in Hprev.
Qed.

End Rockprops.


(** ** The end-to-end scenario *)

Lemma scenario_store `{Numeric} (points : list vec3) :
  scenario points = GeoHistory.rockprops recursion_limit two_layer_store [0; 1]
                      points (qc 10).
Proof.
  unfold scenario. 
  assert (GeoHistory.add_event unlinked_store [] 0 = Ok (unlinked_store, [0]))
    as -> by reflexivity.
  cbn [mbind result_bind].
  assert (GeoHistory.add_event unlinked_store [0] 1
          = Ok (<[1 := strat_layer (qc 1) (qc 1) (Some 0)]> unlinked_store, [0; 1]))
    as -> by reflexivity.
  cbn [mbind result_bind].
  assert (GeoHistory.deserialize
            (<[1 := strat_layer (qc 1) (qc 1) (Some 0)]> unlinked_store) [0; 1]
            [PyFloat (qc 3); PyFloat (qc 100); PyFloat (Q2Qc (5 # 2))]
          = Ok two_layer_store) as -> by (by vm_compute).
  done.
Qed.

(** C8 (as the code has it).  The chain Basement(density=3.0),
    StratLayer(thickness=100, density=2.5), evaluated with scale 10 at
    (0,0,-200), (0,0,0), (0,0,200), yields exactly [3.0, 2.5, 2.5] in that
    point order: the basement density below the interface, the layer
    density above it.  The mid-transition value 0.5*(2.5+3.0) = 2.75 is
    attained where the shifted vertical coordinate is zero, at z = -100. *)
Theorem scenario_densities `{Numeric} :
  scenario [(0, 0, qc (-200))%Qc; (0, 0, 0)%Qc; (0, 0, qc 200)%Qc]
    = Ok [qc 3; Q2Qc (5 # 2); Q2Qc (5 # 2)] ∧
  scenario [(0, 0, qc (-100))%Qc] = Ok [Q2Qc (11 # 4)].
Proof.
  rewrite !scenario_store. split.
  - qc_compute.
  - qc_compute.
Qed.

(** C8, counterexample.  The densities at (0,0,-200), (0,0,0), (0,0,200) are
    not approximately [2.5, 2.5, 3.0]: the first and the last differ from
    these by 0.5, so no tolerance below 0.5 accepts them. *)
Lemma scenario_densities_not_as_claimed :
  ¬ ∃ ρ tol,
      @scenario rational_numeric
        [(0, 0, qc (-200))%Qc; (0, 0, 0)%Qc; (0, 0, qc 200)%Qc] = Ok ρ ∧
      (tol < half)%Qc ∧
      allclose tol ρ [Q2Qc (5 # 2); Q2Qc (5 # 2); qc 3] = true.
Proof.
  intros (ρ & tol & Hρ & Htol & Hclose).
  rewrite scenario_store in Hρ. vm_compute in Hρ. injection Hρ as <-.
  cbn [allclose] in Hclose. apply andb_true_iff in Hclose as [Hfirst _].
  apply negb_true_iff, Qcltb_ge in Hfirst.
  assert (np_abs ({| this := 3; canon := Qred_involutive 3 |}
                  - Q2Qc (5 # 2)) = half) as Habs.
  { apply Qc_is_canon. reflexivity. }
  rewrite Habs in Hfirst. exact (Qcle_not_lt _ _ Hfirst Htol).
Qed.

(** ** Sampling *)

Lemma np_random_uniform_length (low high : Qc) (size : nat) (g : RandomState) :
  length (np_random_uniform low high size g).1 = size.
Proof. cbn. by rewrite length_map, length_seq. Qed.

Lemma np_random_normal_Ok (loc scale : Qc) (size : nat) (g : RandomState) :
  (0 <= scale)%Qc →
  ∃ xs, np_random_normal loc scale size g = Ok (xs, advance size g)
        ∧ length xs = size.
Proof.
  intros Hscale. unfold np_random_normal.
  apply Qcltb_ge in Hscale. rewrite Hscale.
  eexists. split; [done|]. by rewrite length_map, length_seq.
Qed.

Lemma np_random_normal_Raise (loc scale : Qc) (size : nat) (g : RandomState) :
  (scale < 0)%Qc → np_random_normal loc scale size g = Raise ValueError.
Proof.
  intros Hscale. unfold np_random_normal.
  apply Qcltb_lt in Hscale. by rewrite Hscale.
Qed.

(** C5 (the code against the claim).  [UniGaussianDist.sample] passes
    [size=1] to the generator instead of its argument: with a std that the
    generator accepts (not negative), whatever count is asked for, it
    returns one draw and uses one deviate, so [sample(2)] has length 1; with
    a negative std [np.random.normal] raises ValueError.  The sibling
    [UniformDist.sample] passes [size=size] and, for a width that is not
    negative, returns [size] draws.  [vMFDist.sample(2)] raises, since
    arrays of shapes (2,) and (3,) do not broadcast. *)
Theorem sample_counts `{Numeric} (mean std width th0 ph0 kappa : Qc)
    (size : nat) (g : RandomState) :
  ((0 <= std)%Qc →
   (∃ x, sample (UniGaussianDist mean std) size g = Ok ([x], advance 1 g)) ∧
   (∃ xs g', sample (UniGaussianDist mean std) 2 g = Ok (xs, g')
             ∧ length xs = 1)) ∧
  ((std < 0)%Qc → sample (UniGaussianDist mean std) size g = Raise ValueError) ∧
  ((0 <= width)%Qc →
   ∃ xs g', sample (UniformDist mean width) size g = Ok (xs, g')
            ∧ length xs = size) ∧
  sample (vMFDist th0 ph0 kappa) 2 g = Raise ValueError.
Proof.
  split; [|split; [|split]].
  - intros Hstd. cbn. unfold UniGaussianDist_sample.
    destruct (np_random_normal_Ok mean std 1 g Hstd) as (xs & Hxs & Hlen).
    rewrite Hxs. destruct xs as [|x [|]]; try discriminate.
    split; [by exists x | by exists [x], (advance 1 g)].
  - intros Hstd. cbn. by apply np_random_normal_Raise.
  - intros _. do 2 eexists. split; [done|]. apply np_random_uniform_length.
  - done.
Qed.

Lemma sample_counts_witness :
  ∃ x, @sample rational_numeric (UniGaussianDist (qc 3) half) 5 zero_stream
       = Ok ([x], advance 1 zero_stream).
Proof.
  refine (proj1 (proj1 (@sample_counts rational_numeric (qc 3) half (qc 1000)
                          (qc 20) (qc 0) (qc 100) 5 zero_stream) _)).
  by vm_compute.
Defined.

(** ** Construction with keyword arguments *)

(* No declared parameter name survives the unpacking of the key: it is not
   two characters long, or its first character is no parameter name. *)
Lemma declared_key_raises (c : EventClass) (key : string) :
  key ∈ _pars c →
  match unpack2 key with
  | Ok (a, _) => a ∉ _pars c
  | Raise _ => True
  end.
Proof.
  destruct c; cbn; intros Hkey;
    repeat (apply elem_of_cons in Hkey as [->|Hkey];
            [cbn; first [done | apply (bool_decide_unpack _); by vm_compute]|]);
    by apply elem_of_nil in Hkey.
Qed.

Lemma set_kw_attrs_cls (kwargs : list (string * pyval)) (self self' : GeoEvent) :
  set_kw_attrs kwargs self = Ok self' → cls self' = cls self.
Proof.
  revert self. induction kwargs as [|[k v] rest IH]; intros self; cbn.
  - by intros [= <-].
  - destruct (unpack2 k) as [[a b]|]; cbn; [|discriminate].
    case_bool_decide; [|discriminate]. intros Hrest. by rewrite (IH _ Hrest).
Qed.

Lemma set_kw_attrs_declared_fails (kwargs : list (string * pyval))
    (self : GeoEvent) (key : string) (val : pyval) :
  key ∈ _pars (cls self) → (key, val) ∈ kwargs →
  fails (set_kw_attrs kwargs self).
Proof.
  intros Hkey. revert self Hkey.
  induction kwargs as [|[k v] rest IH]; intros self Hkey Hin.
  { by apply elem_of_nil in Hin. }
  cbn. apply elem_of_cons in Hin as [[= <- <-]|Hin].
  - pose proof (declared_key_raises _ _ Hkey) as Hraise.
    destruct (unpack2 key) as [[a b]|]; cbn; [|by eexists].
    rewrite bool_decide_eq_false_2 by done. by eexists.
  - destruct (unpack2 k) as [[a b]|]; cbn; [|by eexists].
    case_bool_decide; [|by eexists]. by apply IH.
Qed.

Section Construction.
Context `{Numeric}.

Lemma set_to_prior_draw_from_cls (ps : list prior) (self self' : GeoEvent)
    (g g' : RandomState) :
  set_to_prior_draw_from ps self g = Ok (self', g') → cls self' = cls self.
Proof.
  revert self g. induction ps as [|p ps IH]; intros self g; cbn.
  - by intros [= <- _].
  - destruct (sample (dist p) 1 g) as [[vals g1]|]; cbn; [|discriminate].
    intros Hrest. rewrite (IH _ _ Hrest).
    generalize (PyFloat <$> vals). generalize (parnames p). clear.
    intros names. revert self.
    induction names as [|n names IH]; intros self [|v vals]; cbn; try done.
    by rewrite IH.
Qed.

(* a keyword that names a declared parameter makes the constructor raise *)
Lemma GeoEvent_init_declared_fails (c : EventClass) (priors : list prior)
    (kwargs : list (string * pyval)) (g : RandomState)
    (key : string) (val : pyval) :
  key ∈ _pars c → (key, val) ∈ kwargs →
  fails (GeoEvent_init c priors kwargs g).
Proof.
  intros Hkey Hin. unfold GeoEvent_init.
  destruct (check_priors (_pars c) priors []) as [ppars|]; cbn; [|by eexists].
  case_bool_decide; [|by eexists].
  unfold set_to_prior_draw. cbn [_priors].
  destruct (set_to_prior_draw_from priors _ g) as [[self g']|] eqn:Hdraw; cbn;
    [|by eexists].
  apply set_to_prior_draw_from_cls in Hdraw. cbn in Hdraw.
  destruct (set_kw_attrs_declared_fails kwargs self key val) as [e He];
    [by rewrite Hdraw | done |].
  rewrite He. by eexists.
Qed.

(** C9 (the code against the claim).  [set_kw_attrs] iterates over the
    keys of the keyword dictionary and unpacks each key into two
    characters, so naming a declared parameter makes the constructor
    raise: ValueError for [density=3.0] on a BasementEvent (seven
    characters) and for [s=0.0] on a PlanarFaultEvent (one character),
    AttributeError for [x0=0.0] (two characters, then the missing
    [_hypars]).  No event is returned; without keywords the same
    constructor succeeds. *)
Theorem keyword_construction_raises (g : RandomState) (v : pyval) :
  GeoEvent_init BasementEvent basement_priors [("density", v)] g
    = Raise ValueError ∧
  GeoEvent_init PlanarFaultEvent fault_priors [("s", v)] g
    = Raise ValueError ∧
  GeoEvent_init PlanarFaultEvent fault_priors [("x0", v)] g
    = Raise AttributeError ∧
  succeeds (GeoEvent_init BasementEvent basement_priors [] g).
Proof.
  split; [|split; [|split]].
  - reflexivity.
  - reflexivity.
  - reflexivity.
  - by eexists.
Qed.
End Construction.

(** ** Log-priors *)

Lemma xadd_assoc (a b c : xfloat) : (a + (b + c))%X = (a + b + c)%X.
Proof. destruct a, b, c; cbn; try done. f_equal. ring. Qed.

Lemma xadd_0_l (a : xfloat) : (Fin 0%Qc + a)%X = a.
Proof. destruct a; cbn; try done. f_equal. ring. Qed.

Lemma xadd_0_r (a : xfloat) : (a + Fin 0%Qc)%X = a.
Proof. destruct a; cbn; try done. f_equal. ring. Qed.

Lemma foldl_xadd (a : xfloat) (l : list xfloat) :
  foldl xadd a l = (a + np_sum l)%X.
Proof.
  unfold np_sum. revert a. induction l as [|x l IH]; intros a; cbn [foldl].
  - by rewrite xadd_0_r.
  - rewrite (IH (a + x)%X), (IH (Fin 0%Qc + x)%X), xadd_0_l.
    by rewrite xadd_assoc.
Qed.

Lemma np_sum_app (l1 l2 : list xfloat) :
  np_sum (l1 ++ l2) = (np_sum l1 + np_sum l2)%X.
Proof. unfold np_sum at 1. by rewrite foldl_app, foldl_xadd. Qed.

Lemma np_sum_cons (x : xfloat) (l : list xfloat) :
  np_sum (x :: l) = (x + np_sum l)%X.
Proof. unfold np_sum at 1. cbn [foldl]. by rewrite foldl_xadd, xadd_0_l. Qed.

(* the sum of the per-event sums is the sum of all the terms *)
Lemma np_sum_concat (dss : list (list xfloat)) :
  np_sum (np_sum <$> dss) = np_sum (concat dss).
Proof.
  induction dss as [|ds dss IH]; [done|].
  cbn [fmap list_fmap concat]. by rewrite np_sum_cons, np_sum_app, IH.
Qed.

Lemma xadd_proper (a b : xfloat) :
  proper a → proper b →
  proper (a + b)%X ∧ (a = NInf ∨ b = NInf → (a + b)%X = NInf).
Proof. destruct a, b; cbn; try done; intros _ _; split; try done; by intros [|]. Qed.

(* among numbers and -inf, one -inf makes the sum -inf *)
Lemma np_sum_proper (l : list xfloat) :
  Forall proper l → proper (np_sum l) ∧ (NInf ∈ l → np_sum l = NInf).
Proof.
  induction l as [|x l IH]; intros Hall.
  { split; [done|]. by intros ?%elem_of_nil. }
  apply Forall_cons in Hall as [Hx Hl].
  destruct (IH Hl) as [Hsum Hinf]. rewrite np_sum_cons.
  destruct (xadd_proper _ _ Hx Hsum) as [Hp Hi]. split; [done|].
  intros [<- | Hin]%elem_of_cons; apply Hi; auto.
Qed.

Lemma np_abs_gt (x c : Qc) :
  Qcltb c (np_abs x) = true ↔ (x < - c)%Qc ∨ (c < x)%Qc.
Proof.
  rewrite Qcltb_lt. unfold np_abs.
  destruct (Qcltb x 0%Qc) eqn:Hx.
  - apply Qcltb_lt in Hx. revert Hx. qc2q. intros. split; [left|intros [|]]; lra.
  - apply Qcltb_ge in Hx. revert Hx. qc2q. intros. split; [right|intros [|]]; lra.
Qed.

(* the test of the code is the complement of the interval of the spec *)
Lemma UniformDist_test_support (mean width x : Qc) :
  Qcltb (half * width)%Qc (np_abs (x - mean)) = negb (in_support (UniformDist mean width) [x]).
Proof.
  apply eq_true_iff_eq. rewrite np_abs_gt. cbn.
  rewrite negb_andb, !negb_involutive, orb_true_iff, !Qcltb_lt.
  qc2q. split; (intros [|]; [left | right]; lra).
Qed.

Lemma check_priors_Forall (pars : list string) (ps : list prior)
    (acc ppars : list string) :
  check_priors pars ps acc = Ok ppars →
  Forall (λ p, (∀ n, n ∈ parnames p → n ∈ pars)
               ∧ length (parnames p) = Ndim (dist p)) ps.
Proof.
  revert acc. induction ps as [|p ps IH]; intros acc; cbn; [by constructor|].
  destruct (forallb _ (parnames p)) eqn:Hnames; [|discriminate].
  case_bool_decide as Hdim; [|discriminate]. intros Hrest.
  constructor; [|by eapply IH]. split; [|done].
  intros n Hn. rewrite forallb_forall in Hnames.
  apply list_elem_of_In, Hnames in Hn. by apply bool_decide_eq_true in Hn.
Qed.

Lemma getattrs_floats (self : GeoEvent) (names : list string) :
  (∀ n, n ∈ names → is_float (attrs self !! n) = true) →
  ∃ qs, getattrs self names = Ok (PyFloat <$> qs) ∧ length qs = length names.
Proof.
  induction names as [|a names IH]; intros Hfl; [by exists []|].
  destruct IH as (qs & Hqs & Hlen); [intros n Hn; apply Hfl; by right|].
  specialize (Hfl a ltac:(left)). cbn. unfold getattr at 1.
  destruct (attrs self !! a) as [[q|]|]; try discriminate.
  exists (q :: qs). cbn. rewrite Hqs. cbn. split; [done|]. by rewrite Hlen.
Qed.

Section LogPriors.
Context `{Numeric}.

Lemma log_prior_from_sum (self : GeoEvent) (ps : list prior)
    (ds : list xfloat) (lP : xfloat) :
  Forall2 (λ p d, prior_density self p = Ok d) ps ds →
  log_prior_from ps self lP = Ok (foldl xadd lP ds).
Proof.
  intros Hall. revert lP.
  induction Hall as [|p d ps ds Hd _ IH]; intros lP; [done|].
  cbn. apply bind_Ok in Hd as (pars & -> & Hcall). cbn.
  rewrite Hcall. cbn. apply IH.
Qed.

Lemma log_prior_each_sums (σ : gmap loc GeoEvent) (event_list : list loc)
    (dss : list (list xfloat)) :
  Forall2 (event_densities σ) event_list dss →
  GeoHistory.log_prior_each σ event_list = Ok (np_sum <$> dss).
Proof.
  induction 1 as [|l ds rest dss (e & Hl & Hds) _ IH]; [done|].
  cbn. rewrite Hl. unfold log_prior.
  rewrite (log_prior_from_sum _ _ _ _ Hds). cbn. by rewrite IH.
Qed.

Lemma outside_support_density (self : GeoEvent) (p : prior) (qs : list Qc)
    (d : xfloat) :
  getattrs self (parnames p) = Ok (PyFloat <$> qs) →
  outside_support (dist p) qs = true →
  prior_density self p = Ok d → d = NInf.
Proof.
  intros Hpars Hout. unfold prior_density. rewrite Hpars. cbn.
  destruct (dist p) as [| mean width |]; try discriminate.
  destruct qs as [|x [|]]; try discriminate. cbn in Hout |- *.
  unfold UniformDist_call. rewrite Hout. by intros [= <-].
Qed.

(* validated events with their parameters set have all their
   log-densities, so logprior raises nothing on them *)
Lemma LogPrior_call_floats (d : LogPrior) (qs : list Qc) :
  length qs = Ndim d → ∃ v, LogPrior_call d (PyFloat <$> qs) = Ok v.
Proof.
  destruct d, qs as [|? [|? [|]]]; cbn; try discriminate; by eexists.
Qed.

Lemma validated_event_densities (self : GeoEvent) :
  float_valued self = true → validated self = true →
  ∃ ds, Forall2 (λ p d, prior_density self p = Ok d) (_priors self) ds.
Proof.
  unfold validated, float_valued. rewrite forallb_forall. intros Hfl Hval.
  destruct (check_priors _ _ _) as [ppars|] eqn:Hchk; [|discriminate].
  apply check_priors_Forall in Hchk.
  induction Hchk as [|p ps [Hnames Hdim] _ IH]; [by exists []|].
  destruct IH as [ds Hds].
  destruct (getattrs_floats self (parnames p)) as (qs & Hqs & Hlen).
  { intros n Hn. by apply Hfl, list_elem_of_In, Hnames. }
  destruct (LogPrior_call_floats (dist p) qs) as [v Hv]; [congruence|].
  exists (v :: ds). constructor; [|done].
  unfold prior_density. by rewrite Hqs.
Qed.

Lemma history_densities_exist (σ : gmap loc GeoEvent) (event_list : list loc) :
  parameters_set σ event_list = true →
  (∀ l e, l ∈ event_list → σ !! l = Some e → validated e = true) →
  ∃ dss, Forall2 (event_densities σ) event_list dss.
Proof.
  induction event_list as [|l rest IH]; intros Hset Hval; [by exists []|].
  apply parameters_set_cons in Hset as [(e & Hl & He) Hrest].
  destruct IH as [dss Hdss]; [done | intros k e' Hk; apply Hval; by right |].
  destruct (validated_event_densities e He) as [ds Hds].
  { eapply Hval; [left | done]. }
  exists (ds :: dss). constructor; [|done]. by exists e.
Qed.

(** C6 (as the code has it).  Given the log-density of every prior of every
    event at the event's current parameter values, and no Gaussian prior
    with std zero, [logprior] raises nothing and returns the sum over the
    events of each event's sum of log-densities, added up as the code adds
    them.
    When some parameter fails the test of its uniform prior, that
    log-density is -inf; the sum returned is -inf provided every
    log-density is a number or -inf.  Without the proviso the -inf does not
    always propagate: a log-density +inf (a uniform prior of width zero at
    its mean) or nan turns the sum into nan. *)
Theorem logprior_sum_and_support (σ : gmap loc GeoEvent)
    (event_list : list loc) (dss : list (list xfloat)) :
  Forall2 (event_densities σ) event_list dss →
  evaluable σ event_list = true →
  GeoHistory.logprior σ event_list = Ok (np_sum (np_sum <$> dss)) ∧
  (Forall proper (concat dss) →
   (∃ l e p qs, l ∈ event_list ∧ σ !! l = Some e ∧ p ∈ _priors e ∧
                getattrs e (parnames p) = Ok (PyFloat <$> qs) ∧
                outside_support (dist p) qs = true) →
   GeoHistory.logprior σ event_list = Ok NInf).
Proof.
  intros Hall _. unfold GeoHistory.logprior.
  rewrite (log_prior_each_sums _ _ _ Hall). cbn.
  split; [done|]. intros Hproper (l & e & p & qs & Hl & He & Hp & Hpars & Hout).
  rewrite np_sum_concat.
  f_equal. apply np_sum_proper; [done|].
  apply list_elem_of_lookup in Hl as [i Hi].
  destruct (Forall2_lookup_l _ _ _ _ _ Hall Hi) as (ds & Hds & e' & He' & Hdens).
  assert (e' = e) as -> by congruence.
  apply list_elem_of_lookup in Hp as [j Hj].
  destruct (Forall2_lookup_l _ _ _ _ _ Hdens Hj) as (d & Hd & Hpd).
  rewrite (outside_support_density _ _ _ _ Hpars Hout Hpd) in Hd.
  apply list_elem_of_In, in_concat. exists ds.
  split; apply list_elem_of_In; by eapply list_elem_of_lookup_2.
Qed.
End LogPriors.

Lemma logprior_sum_and_support_witness :
  Forall2 (@event_densities rational_numeric fault_store) [0; 1]
    fault_store_densities ∧
  evaluable fault_store [0; 1] = true ∧
  @GeoHistory.logprior rational_numeric fault_store [0; 1] = Ok NInf.
Proof.
  assert (Forall2 (@event_densities rational_numeric fault_store) [0; 1]
            fault_store_densities) as Hdens.
  { repeat constructor; eexists; (split; [reflexivity|]);
      repeat constructor; by vm_compute. }
  assert (evaluable fault_store [0; 1] = true) as Heval by (by vm_compute).
  split; [exact Hdens|]. split; [exact Heval|].
  refine (proj2 (@logprior_sum_and_support rational_numeric fault_store [0; 1]
                   fault_store_densities Hdens Heval) _ _).
  - repeat constructor.
  - exists 1, (planar_fault (qc (-4000)) (qc 0) (qc 20) (qc 0) (qc 0) (Some 0)),
      {| parnames := ["s"]; dist := UniformDist (qc (-4200)) (qc 1000) |},
      [qc 0].
    split; [set_solver|]. split; [reflexivity|]. split; [|split; reflexivity].
    cbn. unfold fault_priors. set_solver.
Defined.

(** C6, counterexample.  [zero_width_store] is a history as
    [add_event] builds it, with priors that the constructor accepts and
    every parameter set.  The density 4 of the layer fails the test of its
    uniform prior on [2, 3], so that log-density is -inf.  The density 3 of
    the basement passes the test of its uniform prior of width zero, whose
    log-density there is [-log(0)], that is +inf.  The sum is nan, not
    -inf. *)
Lemma logprior_nan_outside_support :
  well_formed_chain zero_width_store [0; 1] = true ∧
  constructed zero_width_store [0; 1] = true ∧
  parameters_set zero_width_store [0; 1] = true ∧
  evaluable zero_width_store [0; 1] = true ∧
  outside_support (dist boxed_prior) [qc 4] = true ∧
  @prior_density rational_numeric heavy_layer boxed_prior = Ok NInf ∧
  @prior_density rational_numeric pinned_basement pinned_prior = Ok PInf ∧
  @GeoHistory.logprior rational_numeric zero_width_store [0; 1] = Ok NaN.
Proof. repeat split; by vm_compute. Qed.

Section Support.
Context `{Numeric}.

Lemma xlog_not_PInf (x : Qc) : xlog x ≠ PInf.
Proof. unfold xlog. by repeat case_match. Qed.

(* with a positive width the log-density is a number or -inf *)
Lemma UniformDist_call_proper (mean width x : Qc) :
  (0 < width)%Qc → proper (UniformDist_call mean width x).
Proof.
  intros Hw%Qcltb_lt. unfold UniformDist_call, xlog. rewrite Hw.
  by case_match.
Qed.

(* with a non-zero std the log-density is a number *)
Lemma UniGaussianDist_call_finite (mean std x : Qc) :
  (0 < np_pi)%Qc → std ≠ 0%Qc → ∃ q, UniGaussianDist_call mean std x = Fin q.
Proof.
  intros Hpi Hstd. unfold UniGaussianDist_call, xlog.
  assert (Qcltb 0%Qc (two * np_pi * std ^ 2)%Qc = true) as ->.
  { apply Qcltb_lt. 
    assert (¬ (std == 0)%Q) as Hstd' by (intros Heq; apply Hstd; by apply Qc_is_canon).
    revert Hpi. cbn [Qcpower]. qc2q. intros Hpi.
    assert (0 < std * std)%Q as Hsq.
    { destruct (Q_dec std 0) as [[Hneg | Hpos] | Hz]; [nra | nra | done]. }
    nra. }
  cbn. destruct (Qc_eq_dec std 0%Qc); [done|]. by eexists.
Qed.
(** C10.  If [|x - mean|] is exactly [width/2] then
    [UniformDist(mean, width)(x)] is [-log(width)] and not -inf: the
    boundary of the support is included.  The value -inf is returned
    exactly when [|x - mean|] is strictly greater than [width/2]. *)
Theorem UniformDist_boundary_inclusive (mean width x : Qc) :
  np_abs (x - mean) = (half * width)%Qc →
  UniformDist_call mean width x = (- xlog width)%X ∧
  UniformDist_call mean width x ≠ NInf ∧
  (∀ x', UniformDist_call mean width x' = NInf
         ↔ (half * width < np_abs (x' - mean))%Qc).
Proof.
  intros Hedge.
  assert (∀ w, (- xlog w)%X ≠ NInf) as Hlog.
  { intros w Hw. pose proof (xlog_not_PInf w). by destruct (xlog w). }
  assert (UniformDist_call mean width x = (- xlog width)%X) as Hcall.
  { unfold UniformDist_call. rewrite Hedge.
    assert (Qcltb (half * width) (half * width) = false) as ->; [|done].
    apply Qcltb_ge, Qcle_refl. }
  split; [done|]. split; [rewrite Hcall; apply Hlog|].
  intros x'. rewrite <- Qcltb_lt. unfold UniformDist_call.
  destruct (Qcltb (half * width) (np_abs (x' - mean))); split; try done.
  intros Hinf. by destruct (Hlog width).
Qed.
End Support.

Lemma UniformDist_boundary_inclusive_witness :
  np_abs (qc (-3700) - qc (-4200)) = (half * qc 1000)%Qc ∧
  @UniformDist_call rational_numeric (qc (-4200)) (qc 1000) (qc (-3700))
    = (- @xlog rational_numeric (qc 1000))%X.
Proof.
  assert (np_abs (qc (-3700) - qc (-4200)) = (half * qc 1000)%Qc) as Hedge.
  { apply Qc_is_canon. reflexivity. }
  split; [exact Hedge|].
  exact (proj1 (@UniformDist_boundary_inclusive rational_numeric
                  (qc (-4200)) (qc 1000) (qc (-3700)) Hedge)).
Defined.

Lemma soft_if_then_limits_and_ramp_witness :
  (0 < qc 10)%Qc ∧
  ∃ ri, soft_if_then [qc (-6)] [qc 3] [Q2Qc (5 # 2)] (qc 10) !! 0 = Some ri ∧
        ((qc (-6) < - half * qc 10)%Qc → ri = qc 3).
Proof.
  split; [reflexivity|].
  destruct (soft_if_then_limits_and_ramp [qc (-6)] [qc 3] [Q2Qc (5 # 2)]
              (qc 10) 0 (qc (-6)) (qc 3) (Q2Qc (5 # 2)))
    as (ri & Hri & Hlow & _); [reflexivity..|].
  exists ri. split; [exact Hri | exact Hlow].
Defined.

(** * Further properties *)

(** ** More on rock properties *)

Lemma vadd_zero_amplitude (p v : vec3) (k : Qc) :
  vadd p (vscale (0 * k)%Qc v) = p.
Proof.
  destruct p as [[p1 p2] p3], v as [[v1 v2] v3]. cbn.
  repeat f_equal; ring.
Qed.

Lemma last_cons_default {A} (a x : A) (l : list A) :
  default a (last (x :: l)) = default x (last l).
Proof.
  destruct l as [|y l _] using rev_ind; [done|].
  by rewrite app_comm_cons, !last_snoc.
Qed.

Lemma float_valued_lookup (self : GeoEvent) (a : string) :
  float_valued self = true → a ∈ _pars (cls self) →
  ∃ q, attrs self !! a = Some (PyFloat q).
Proof.
  unfold float_valued. rewrite forallb_forall. intros Hall Ha.
  apply list_elem_of_In, Hall in Ha.
  destruct (attrs self !! a) as [[q|]|]; try discriminate. by exists q.
Qed.

(* the name is one of the declared parameters of the class at hand *)
Ltac in_pars :=
  match goal with Hc : cls _ = _ |- _ ∈ _pars _ => rewrite Hc end;
  apply list_elem_of_In; cbn; tauto.

Section MoreRockprops.
Context `{Numeric}.


Lemma rockprops_step (fuel : nat) (σ : gmap loc GeoEvent) (l : loc)
    (self : GeoEvent) (h : Qc) :
  σ !! l = Some self → cls self ≠ GeoEventBase → float_valued self = true →
  (cls self = BasementEvent ∨
   ∃ prev, previous_event self = Some prev ∧
           ∀ r, succeeds (rockprops fuel σ prev r h)) →
  ∀ r, succeeds (rockprops (S fuel) σ l r h).
Proof.
  intros Hl Hbase Hfl Hprev r.
  cbn -[vadd vdiv vscale vsub cross dot sph2xyz l2norm soft_if_then].
  rewrite Hl. unfold getfloat, getattr.
  destruct (cls self) eqn:Hcls; try done.
  - destruct (float_valued_lookup self "density" Hfl) as [q ->];
      [in_pars|]. by eexists.
  - destruct Hprev as [|(prev & -> & Hsucc)]; [done|].
    destruct (float_valued_lookup self "thickness" Hfl) as [t ->];
      [in_pars|].
    destruct (float_valued_lookup self "density" Hfl) as [q ->];
      [in_pars|].
    cbn -[vadd soft_if_then].
    destruct (Hsucc (map (λ p, vadd p (0, 0, t)%Qc) r)) as [g ->]. by eexists.
  - destruct Hprev as [|(prev & -> & Hsucc)]; [done|].
    destruct (float_valued_lookup self "x0" Hfl) as [x0 ->];
      [in_pars|].
    destruct (float_valued_lookup self "y0" Hfl) as [y0 ->];
      [in_pars|].
    destruct (float_valued_lookup self "nth" Hfl) as [nth ->];
      [in_pars|].
    destruct (float_valued_lookup self "nph" Hfl) as [nph ->];
      [in_pars|].
    destruct (float_valued_lookup self "s" Hfl) as [s ->];
      [in_pars|].
    cbn -[vadd vdiv vscale vsub cross dot sph2xyz l2norm soft_if_then].
    destruct (Hsucc r) as [g0 ->].
    cbn -[vadd vdiv vscale vsub cross dot sph2xyz l2norm soft_if_then].
    match goal with |- context [rockprops fuel σ prev ?r' h] =>
      destruct (Hsucc r') as [g1 ->] end.
    by eexists.
  - destruct Hprev as [|(prev & -> & Hsucc)]; [done|].
    destruct (float_valued_lookup self "nth" Hfl) as [nth ->];
      [in_pars|].
    destruct (float_valued_lookup self "nph" Hfl) as [nph ->];
      [in_pars|].
    destruct (float_valued_lookup self "pitch" Hfl) as [pitch ->];
      [in_pars|].
    destruct (float_valued_lookup self "phase" Hfl) as [phase ->];
      [in_pars|].
    destruct (float_valued_lookup self "wavelength" Hfl) as [wl ->];
      [in_pars|].
    destruct (float_valued_lookup self "amplitude" Hfl) as [am ->];
      [in_pars|].
    cbn -[vadd vdiv vscale vsub cross dot sph2xyz l2norm soft_if_then].
    apply Hsucc.
Qed.

Lemma linked_chain_evaluates (σ : gmap loc GeoEvent) (h : Qc)
    (rest : list loc) (prev : loc) (n : nat) :
  (∀ fuel r, n ≤ fuel → succeeds (rockprops fuel σ prev r h)) →
  linked_from σ prev rest = true → concrete σ rest = true →
  parameters_set σ rest = true →
  ∀ fuel r, n + length rest ≤ fuel →
    succeeds (rockprops fuel σ (default prev (last rest)) r h).
Proof.
  revert prev n. induction rest as [|l rest IH]; intros prev n Hprev Hlink Hconc Hset.
  { intros fuel r Hfuel. apply Hprev. cbn in Hfuel. lia. }
  cbn in Hlink, Hconc.
  apply parameters_set_cons in Hset as [(e & Hl & He) Hset].
  rewrite Hl in Hlink, Hconc.
  apply andb_true_iff in Hlink as [Hp%bool_decide_eq_true Hlink].
  apply andb_true_iff in Hconc as [Hc%bool_decide_eq_true Hconc].
  intros fuel r Hfuel.
  assert (default prev (last (l :: rest)) = default l (last rest)) as ->.
  { apply last_cons_default. }
  apply (IH l (S n)); [|done..| cbn in Hfuel; lia].
  intros [|fuel'] r' Hf; [lia|].
  apply (rockprops_step fuel' σ l e h Hl Hc He).
  right. exists prev. split; [done|]. intros r''. apply Hprev. lia.
Qed.

(* a whole history: the basement first, then the linked events *)
Lemma history_evaluates (σ : gmap loc GeoEvent)
    (event_list : list loc) (fuel : nat) (r : list vec3) (h : Qc) :
  event_list ≠ [] →
  well_formed_chain σ event_list = true →
  concrete σ event_list = true →
  parameters_set σ event_list = true →
  length event_list ≤ fuel →
  ∃ g, GeoHistory.rockprops fuel σ event_list r h = Ok g
       ∧ length g = length r.
Proof.
  intros Hne Hwf Hconc Hset Hfuel.
  destruct event_list as [|l0 rest]; [done|].
  unfold well_formed_chain in Hwf.
  apply andb_true_iff in Hwf as [_ Hwf].
  pose proof Hset as Hset0.
  apply parameters_set_cons in Hset as [(e & Hl & He) Hset].
  rewrite Hl in Hwf. apply andb_true_iff in Hwf as [Hb%bool_decide_eq_true Hlink].
  cbn in Hconc. rewrite Hl in Hconc.
  apply andb_true_iff in Hconc as [Hc%bool_decide_eq_true Hconc].
  assert (succeeds (rockprops fuel σ (default l0 (last rest)) r h)) as [g Hg].
  { apply (linked_chain_evaluates σ h rest l0 1); [|done..| cbn in Hfuel; lia].
    intros [|fuel'] r' Hf; [lia|].
    apply (rockprops_step fuel' σ l0 e h Hl Hc He). by left. }
  exists g. unfold GeoHistory.rockprops.
  assert (last (l0 :: rest) = Some (default l0 (last rest))) as ->.
  { destruct rest as [|x rest _] using rev_ind; [done|].
    by rewrite app_comm_cons, !last_snoc. }
  split; [done|]. by eapply rockprops_length.
Qed.

(** X2.  On a non-empty well-formed chain (first event a
    [BasementEvent], every later event linked to the one before it, events
    distinct) without events of the base class and with every declared
    parameter set to a float, [GeoHistory.rockprops] raises nothing as soon
    as the call stack may be as deep as the chain is long: it returns one
    density for each query point. *)
Theorem well_formed_history_evaluates (σ : gmap loc GeoEvent)
    (event_list : list loc) (fuel : nat) (r : list vec3) (h : Qc) :
  event_list ≠ [] →
  well_formed_chain σ event_list = true →
  concrete σ event_list = true →
  parameters_set σ event_list = true →
  length event_list ≤ fuel →
  ∃ g, GeoHistory.rockprops fuel σ event_list r h = Ok g
       ∧ length g = length r.
Proof.
  intros Hne Hwf Hconc Hset Hfuel. by apply history_evaluates.
Qed.

(** X3.  Whenever [GeoHistory.rockprops] returns, it returns
    exactly one density for each query point, for every store, history and
    scale. *)
Theorem history_rockprops_length (σ : gmap loc GeoEvent) (event_list : list loc)
    (fuel : nat) (r : list vec3) (h : Qc) (g : list Qc) :
  GeoHistory.rockprops fuel σ event_list r h = Ok g → length g = length r.
Proof.
  unfold GeoHistory.rockprops. destruct (last event_list); [|discriminate].
  apply rockprops_length.
Qed.
End MoreRockprops.


Lemma well_formed_history_evaluates_witness :
  ∃ g, @GeoHistory.rockprops rational_numeric 2 two_layer_store [0; 1]
         sample_points (qc 10) = Ok g
       ∧ length g = length sample_points.
Proof.
  apply (@well_formed_history_evaluates rational_numeric two_layer_store [0; 1] 2
           sample_points (qc 10)); [discriminate | reflexivity.. | cbn; lia].
Defined.

Lemma history_rockprops_length_witness :
  length (replicate 3 (qc 3 * 1)%Qc) = length sample_points.
Proof.
  apply (@history_rockprops_length rational_numeric two_layer_store [0] 1
           sample_points (qc 10)).
  reflexivity.
Defined.

(** X4.  The displacement directions are orthogonal to the
    normal they are built from.  The slip direction of a planar fault,
    [cross(cross([0,0,1], n), n)], lies in the fault plane; the direction
    [sin(psi)*v0 + cos(psi)*v1] of a fold is orthogonal to the fold axis [n],
    whatever the pitch is and whatever non-zero lengths [v0] and [v1] are
    divided by (in exact arithmetic: the products are not rounded). *)
Theorem displacements_orthogonal (n : vec3) (k0 k1 s c : Qc) :
  k0 ≠ 0%Qc → k1 ≠ 0%Qc →
  dot (cross (cross zaxis n) n) n = 0%Qc ∧
  (let v0 := vdiv (cross n zaxis) k0 in
   let v1 := vdiv (cross v0 n) k1 in
   dot (vadd (vscale s v0) (vscale c v1)) n = 0%Qc).
Proof.
  intros _ _. destruct n as [[n1 n2] n3]. cbn. split; unfold Qcdiv; ring.
Qed.

Lemma displacements_orthogonal_witness :
  dot (cross (cross zaxis (qc 1, qc 2, qc 3)) (qc 1, qc 2, qc 3))
    (qc 1, qc 2, qc 3) = 0%Qc.
Proof.
  refine (proj1 (displacements_orthogonal (qc 1, qc 2, qc 3) (qc 2) (qc 3)
                   (qc 1) (qc 1) _ _));
    intros Heq; apply Qc_eq_Qeq in Heq; by vm_compute in Heq.
Defined.

(** ** More on the parameter vector *)

Lemma deserialize_from_skeleton (pars : list string) (args : list pyval)
    (self self' : GeoEvent) :
  deserialize_from pars args self = Ok self' → skeleton self' = skeleton self.
Proof.
  revert args self. induction pars as [|a pars IH]; intros [|v args] self; cbn;
    try discriminate; try by intros [= <-].
  intros Hd. by rewrite (IH _ _ Hd).
Qed.

Lemma deserialize_from_overflow (pars : list string) (args : list pyval)
    (self : GeoEvent) :
  length pars < length args → deserialize_from pars args self = Raise IndexError.
Proof.
  revert args self. induction pars as [|a pars IH]; intros [|v args] self; cbn;
    intros Hlen; try lia; [done|]. apply IH. lia.
Qed.

Lemma deserialize_from_lookup (pars : list string) (args : list pyval)
    (self self' : GeoEvent) (i : nat) (a : string) :
  NoDup pars → deserialize_from pars args self = Ok self' →
  pars !! i = Some a →
  getattr self' a = match args !! i with
                    | Some v => Ok v
                    | None => getattr self a
                    end.
Proof.
  revert args self i.
  induction pars as [|b pars IH]; intros [|v args] self i Hnd; cbn;
    try discriminate.
  - intros [= <-] _. by rewrite lookup_nil.
  - apply NoDup_cons in Hnd as [Hb Hnd]. intros Hd Hi.
    destruct i as [|i]; cbn in *.
    + injection Hi as <-.
      by rewrite (deserialize_from_other _ _ _ _ _ Hb Hd), getattr_setattr_eq.
    + rewrite (IH _ _ _ Hnd Hd Hi).
      destruct (args !! i); [done|].
      apply getattr_setattr_ne. intros ->.
      apply Hb. by eapply list_elem_of_lookup_2.
Qed.

(** X5.  [GeoEvent.deserialize] accepts at most as many values as
    the class declares parameters: with no more values it succeeds, with more
    it raises IndexError (from [self._pars[i]]). *)
Theorem deserialize_arity (self : GeoEvent) (args : list pyval) :
  (length args ≤ Npars self → succeeds (deserialize self args)) ∧
  (Npars self < length args → deserialize self args = Raise IndexError).
Proof.
  split.
  - apply deserialize_from_succeeds.
  - apply deserialize_from_overflow.
Qed.

(** X6.  When [GeoEvent.deserialize] succeeds it assigns
    the i-th value to the i-th declared parameter and nothing else: declared
    parameters beyond the values given keep what they held, other attributes
    are untouched, and class, priors and predecessor are unchanged. *)
Theorem deserialize_assigns_prefix (self self' : GeoEvent) (args : list pyval) :
  deserialize self args = Ok self' →
  skeleton self' = skeleton self ∧
  (∀ i a, _pars (cls self) !! i = Some a →
     getattr self' a = match args !! i with
                       | Some v => Ok v
                       | None => getattr self a
                       end) ∧
  (∀ a, a ∉ _pars (cls self) → getattr self' a = getattr self a).
Proof.
  intros Hd. split; [by eapply deserialize_from_skeleton|]. split.
  - intros i a Hi. eapply deserialize_from_lookup; [apply _pars_NoDup|done..].
  - intros a Ha. by eapply deserialize_from_other.
Qed.

Lemma deserialize_assigns_prefix_witness :
  getattr (setattr (strat_layer (qc 100) (qc 2) None) "thickness" (PyFloat (qc 50)))
    "density" = getattr (strat_layer (qc 100) (qc 2) None) "density".
Proof.
  destruct (deserialize_assigns_prefix (strat_layer (qc 100) (qc 2) None)
              (setattr (strat_layer (qc 100) (qc 2) None) "thickness"
                 (PyFloat (qc 50)))
              [PyFloat (qc 50)]) as (_ & Hpars & _); [reflexivity|].
  exact (Hpars 1 "density" eq_refl).
Defined.

Lemma linked_from_skeleton (σ σ' : gmap loc GeoEvent) (prev : loc) (rest : list loc) :
  (∀ l, skeleton <$> σ' !! l = skeleton <$> σ !! l) →
  linked_from σ' prev rest = linked_from σ prev rest.
Proof.
  intros Hsk. revert prev. induction rest as [|l rest IH]; intros prev; [done|].
  cbn. specialize (Hsk l).
  destruct (σ' !! l) as [e'|], (σ !! l) as [e|]; try discriminate; [|done].
  injection Hsk as _ _ ->. by rewrite IH.
Qed.

Lemma well_formed_chain_skeleton (σ σ' : gmap loc GeoEvent) (h : list loc) :
  (∀ l, skeleton <$> σ' !! l = skeleton <$> σ !! l) →
  well_formed_chain σ' h = well_formed_chain σ h.
Proof.
  intros Hsk. unfold well_formed_chain. f_equal.
  destruct h as [|l rest]; [done|]. pose proof (Hsk l) as Hl.
  destruct (σ' !! l) as [e'|], (σ !! l) as [e|]; try discriminate; [|done].
  injection Hl as -> _ _. by rewrite (linked_from_skeleton σ σ').
Qed.

Lemma concrete_skeleton (σ σ' : gmap loc GeoEvent) (h : list loc) :
  (∀ l, skeleton <$> σ' !! l = skeleton <$> σ !! l) →
  concrete σ' h = concrete σ h.
Proof.
  intros Hsk. unfold concrete. induction h as [|l rest IH]; [done|].
  cbn [forallb]. rewrite IH. f_equal.
  specialize (Hsk l).
  destruct (σ' !! l) as [e'|], (σ !! l) as [e|]; try discriminate; [|done].
  by injection Hsk as -> _ _.
Qed.

Lemma history_deserialize_skeleton (σ σ' : gmap loc GeoEvent)
    (event_list : list loc) (pvec : list pyval) :
  GeoHistory.deserialize σ event_list pvec = Ok σ' →
  ∀ l, skeleton <$> σ' !! l = skeleton <$> σ !! l.
Proof.
  revert σ pvec. induction event_list as [|k rest IH]; intros σ pvec; cbn.
  - by intros [= <-].
  - destruct (σ !! k) as [e|] eqn:Hk; [|discriminate].
    intros (e' & He' & Hrest)%bind_Ok l.
    rewrite (IH _ _ Hrest l).
    destruct (decide (k = l)) as [<-|Hne].
    + rewrite lookup_insert_eq, Hk. cbn. f_equal.
      by eapply deserialize_from_skeleton.
    + by rewrite lookup_insert_ne.
Qed.

(** X7.  [GeoHistory.deserialize] changes parameter values
    only: every event keeps its class, priors and predecessor, events outside
    the history are untouched, and so every list of events is a well-formed
    chain afterwards exactly if it was one before. *)
Theorem deserialize_keeps_chains (σ σ' : gmap loc GeoEvent)
    (event_list : list loc) (pvec : list pyval) :
  GeoHistory.deserialize σ event_list pvec = Ok σ' →
  (∀ l, skeleton <$> σ' !! l = skeleton <$> σ !! l) ∧
  (∀ l, l ∉ event_list → σ' !! l = σ !! l) ∧
  (∀ h, well_formed_chain σ' h = well_formed_chain σ h
        ∧ concrete σ' h = concrete σ h).
Proof.
  intros Hd. pose proof (history_deserialize_skeleton _ _ _ _ Hd) as Hsk.
  split; [done|]. split.
  - intros l Hl. by eapply deserialize_frame.
  - intros h. split.
    + by apply well_formed_chain_skeleton.
    + by apply concrete_skeleton.
Qed.

Lemma deserialize_keeps_chains_witness :
  ∃ σ', GeoHistory.deserialize two_layer_store [0; 1]
          (PyFloat <$> [qc 2; qc 50; qc 1]) = Ok σ' ∧
        (e ← σ' !! 1; attrs e !! "thickness") = Some (PyFloat (qc 50)) ∧
        (e ← two_layer_store !! 1; attrs e !! "thickness")
          = Some (PyFloat (qc 100)) ∧
        well_formed_chain σ' [0; 1] = true.
Proof.
  destruct (GeoHistory.deserialize two_layer_store [0; 1]
              (PyFloat <$> [qc 2; qc 50; qc 1])) as [σ'|e] eqn:Hdes;
    [|by vm_compute in Hdes].
  destruct (deserialize_keeps_chains _ _ _ _ Hdes) as (_ & _ & Hchains).
  exists σ'. split; [reflexivity|].
  split; [|split; [reflexivity|]].
  - vm_compute in Hdes. injection Hdes as <-. reflexivity.
  - by rewrite (proj1 (Hchains [0; 1])).
Defined.

(** ** More on appending *)

Lemma last_cons_Some {A} (x : A) (l : list A) :
  last (x :: l) = Some (default x (last l)).
Proof.
  destruct l as [|y l _] using rev_ind; [done|].
  by rewrite app_comm_cons, !last_snoc.
Qed.


Lemma linked_from_insert (σ : gmap loc GeoEvent) (event : loc) (e : GeoEvent)
    (prev : loc) (rest : list loc) :
  event ∉ rest →
  linked_from (<[event := e]> σ) prev rest = linked_from σ prev rest.
Proof.
  revert prev. induction rest as [|l rest IH]; intros prev Hn; [done|].
  cbn. rewrite lookup_insert_ne by set_solver.
  destruct (σ !! l); [|done]. rewrite IH; [done | set_solver].
Qed.

Lemma linked_from_snoc (σ : gmap loc GeoEvent) (prev x : loc) (rest : list loc) :
  linked_from σ prev (rest ++ [x])
  = linked_from σ prev rest
    && match σ !! x with
       | Some e => bool_decide (previous_event e = Some (default prev (last rest)))
       | None => false
       end.
Proof.
  revert prev. induction rest as [|l rest IH]; intros prev.
  - cbn. destruct (σ !! x); [|done]. by rewrite andb_true_r.
  - cbn [app linked_from]. destruct (σ !! l) as [e|]; [|done].
    rewrite IH, last_cons_default. by rewrite andb_assoc.
Qed.

(** X8.  Appending an event that is not yet in the history
    to a well-formed chain gives a well-formed chain again: the list grows by
    that event at its end, and no other event of the store is changed. *)
Theorem add_event_keeps_chain (σ σ' : gmap loc GeoEvent)
    (event_list event_list' : list loc) (event : loc) :
  well_formed_chain σ event_list = true →
  event ∉ event_list →
  GeoHistory.add_event σ event_list event = Ok (σ', event_list') →
  well_formed_chain σ' event_list' = true ∧
  event_list' = event_list ++ [event] ∧
  (∀ l, l ≠ event → σ' !! l = σ !! l).
Proof.
  unfold GeoHistory.add_event, well_formed_chain.
  intros [Hnd%bool_decide_eq_true Hwf]%andb_true_iff Hfresh.
  destruct (σ !! event) as [e|] eqn:He; [|discriminate].
  destruct event_list as [|l0 rest]; cbn [length].
  - rewrite bool_decide_eq_true_2 by done.
    case_bool_decide as Hc; [|discriminate]. intros [= <- <-].
    split; [|done]. rewrite He, (bool_decide_eq_true_2 _ Hc).
    rewrite bool_decide_eq_true_2; [done|]. apply NoDup_singleton.
  - rewrite bool_decide_eq_false_2 by done. intros [= <- <-].
    split; [|split; [done | by intros l Hl; rewrite lookup_insert_ne]].
    apply andb_true_iff. split.
    { apply bool_decide_eq_true, (NoDup_app (l0 :: rest) [event]).
      split; [done|].
      split; [|apply NoDup_singleton].
      intros x Hx ->%list_elem_of_singleton. done. }
    cbn [app]. rewrite lookup_insert_ne by set_solver.
    destruct (σ !! l0) as [e0|]; [|done].
    apply andb_true_iff in Hwf as [Hb Hlink]. rewrite Hb. cbn [andb].
    rewrite linked_from_snoc, lookup_insert_eq.
    rewrite linked_from_insert, Hlink by set_solver. cbn.
    apply bool_decide_eq_true. cbn. f_equal. apply last_cons_Some.
Qed.

Lemma add_event_keeps_chain_witness :
  well_formed_chain
    (<[1 := strat_layer (qc 1) (qc 1) (Some 0)]> unlinked_store) [0; 1] = true.
Proof.
  refine (proj1 (add_event_keeps_chain unlinked_store _ [0] [0; 1] 1 _ _ _)).
  - reflexivity.
  - intros Hin. apply list_elem_of_In in Hin. cbn in Hin. lia.
  - reflexivity.
Defined.

(** ** The order on parameter names *)

Lemma ascii_compare_refl (a : Ascii.ascii) : Ascii.compare a a = Eq.
Proof. apply N.compare_refl. Qed.

Lemma string_compare_refl (s : string) : String.compare s s = Eq.
Proof. induction s as [|a s IH]; [done|]. cbn. by rewrite ascii_compare_refl. Qed.

Lemma string_compare_lt_trans (a b c : string) :
  String.compare a b = Lt → String.compare b c = Lt → String.compare a c = Lt.
Proof.
  revert b c. induction a as [|x a IH]; intros [|y b] [|z c]; cbn; try done.
  destruct (Ascii.compare x y) eqn:Hxy, (Ascii.compare y z) eqn:Hyz;
    try discriminate.
  - apply Ascii.compare_eq_iff in Hxy as ->. rewrite Hyz. apply IH.
  - apply Ascii.compare_eq_iff in Hxy as ->. by rewrite Hyz.
  - apply Ascii.compare_eq_iff in Hyz as <-. by rewrite Hxy.
  - unfold Ascii.compare in *. rewrite N.compare_lt_iff in Hxy, Hyz.
    assert (N.compare (Ascii.N_of_ascii x) (Ascii.N_of_ascii z) = Lt) as ->;
      [|done].
    apply N.compare_lt_iff. lia.
Qed.

Lemma str_le_alt (a b : string) : str_le a b ↔ String.compare a b = Lt ∨ a = b.
Proof.
  unfold str_le, String.leb. split.
  - destruct (String.compare a b) eqn:Hc; try discriminate; intros _; [|by left].
    right. by apply String.compare_eq_iff.
  - intros [-> | ->]; [done|]. by rewrite string_compare_refl.
Qed.

#[global] Instance str_le_trans : Transitive str_le.
Proof.
  intros a b c. rewrite !str_le_alt. intros [Hab | ->] [Hbc | ->]; auto.
  left. by eapply string_compare_lt_trans.
Qed.

#[global] Instance str_le_antisym : AntiSymm (=) str_le.
Proof. intros a b. apply String.leb_antisym. Qed.

#[global] Instance str_le_total : Total str_le.
Proof. intros a b. apply String.leb_total. Qed.

(* sorted lists are equal exactly when the lists hold the same names, each
   as often *)
Lemma sorted_eq_Permutation (l1 l2 : list string) :
  sorted l1 = sorted l2 ↔ l1 ≡ₚ l2.
Proof.
  unfold sorted. split.
  - intros Heq. rewrite <- (merge_sort_Permutation str_le l1), Heq.
    apply merge_sort_Permutation.
  - intros Hperm. apply (Sorted_unique str_le).
    + apply (Sorted_merge_sort str_le).
    + apply (Sorted_merge_sort str_le).
    + by rewrite !merge_sort_Permutation.
Qed.

(** ** Construction *)

Lemma check_priors_Ok (pars : list string) (ps : list prior)
    (acc ppars : list string) :
  check_priors pars ps acc = Ok ppars →
  ppars = acc ++ concat (parnames <$> ps) ∧ Forall dims_ok ps ∧
  (∀ n, n ∈ concat (parnames <$> ps) → n ∈ pars).
Proof.
  revert acc. induction ps as [|p ps IH]; intros acc; cbn.
  - intros [= <-]. rewrite app_nil_r. split; [done|]. split; [constructor|].
    by intros n ?%elem_of_nil.
  - destruct (forallb _ (parnames p)) eqn:Hnames; [|discriminate].
    case_bool_decide as Hdim; [|discriminate].
    intros (-> & Hdims & Hin)%IH. rewrite <- (assoc_L (++)).
    split; [done|]. split; [by constructor|].
    intros n [Hn | Hn]%elem_of_app; [|by apply Hin].
    rewrite forallb_forall in Hnames.
    apply list_elem_of_In, Hnames in Hn. by apply bool_decide_eq_true in Hn.
Qed.

Lemma check_priors_Raise (pars : list string) (ps : list prior)
    (acc : list string) (e : exn) :
  check_priors pars ps acc = Raise e → e = ValueError.
Proof.
  revert acc. induction ps as [|p ps IH]; intros acc; cbn; [done|].
  destruct (forallb _ (parnames p)); [|by intros [= <-]].
  case_bool_decide; [apply IH | by intros [= <-]].
Qed.

Lemma check_priors_succeeds (pars : list string) (ps : list prior)
    (acc : list string) :
  Forall dims_ok ps → (∀ n, n ∈ concat (parnames <$> ps) → n ∈ pars) →
  check_priors pars ps acc = Ok (acc ++ concat (parnames <$> ps)).
Proof.
  revert acc. induction ps as [|p ps IH]; intros acc Hdims Hin; cbn.
  - by rewrite app_nil_r.
  - apply Forall_cons in Hdims as [Hp Hdims].
    assert (forallb (λ parname, bool_decide (parname ∈ pars)) (parnames p) = true)
      as ->.
    { apply forallb_forall. intros n Hn%list_elem_of_In.
      apply bool_decide_eq_true, Hin. cbn. apply elem_of_app. by left. }
    rewrite bool_decide_eq_true_2 by done.
    rewrite IH; [by rewrite <- (assoc_L (++)) | done |].
    intros n Hn. apply Hin. cbn. apply elem_of_app. by right.
Qed.

(* what __init__ checks, in words: every prior has as many names as its
   distribution has dimensions, and the names of all priors together are
   the declared parameters, each once *)
Lemma well_specified_spec (c : EventClass) (priors : list prior) :
  well_specified c priors = true ↔
  Forall dims_ok priors ∧ concat (parnames <$> priors) ≡ₚ _pars c.
Proof.
  unfold well_specified. split.
  - destruct (check_priors _ _ _) as [ppars|] eqn:Hchk; [|discriminate].
    apply check_priors_Ok in Hchk as (-> & Hdims & _).
    intros Hs%bool_decide_eq_true. by apply sorted_eq_Permutation in Hs.
  - intros [Hdims Hperm].
    rewrite check_priors_succeeds; [| done |].
    + apply bool_decide_eq_true. by apply sorted_eq_Permutation.
    + intros n Hn. by rewrite <- Hperm.
Qed.

Lemma setattrs_skeleton (names : list string) (vals : list pyval) (self : GeoEvent) :
  skeleton (setattrs names vals self) = skeleton self.
Proof.
  revert vals self. induction names as [|n names IH]; intros [|v vals] self;
    cbn; try done. by rewrite IH.
Qed.

Lemma setattrs_floats (names : list string) (qs : list Qc) (self : GeoEvent)
    (a : string) :
  length qs = length names →
  is_float (attrs self !! a) = true ∨ a ∈ names →
  is_float (attrs (setattrs names (PyFloat <$> qs) self) !! a) = true.
Proof.
  revert qs self. induction names as [|n names IH]; intros [|q qs] self;
    cbn; try discriminate.
  - intros _ [|?%elem_of_nil]; done.
  - intros [= Hlen] Ha. apply IH; [done|].
    destruct (decide (a = n)) as [->|Hne].
    + left. cbn. by rewrite lookup_insert_eq.
    + cbn. rewrite lookup_insert_ne by done.
      destruct Ha as [Ha | [-> | Ha]%elem_of_cons]; auto.
Qed.

Section MoreConstruction.
Context `{Numeric}.

(* one draw has as many values as the distribution has dimensions *)
Lemma sample_one (p : prior) (g : RandomState) :
  scale_ok p = true →
  ∃ vals g', sample (dist p) 1 g = Ok (vals, g')
             ∧ length vals = Ndim (dist p).
Proof.
  unfold scale_ok. destruct (dist p) as [mean std| |]; cbn; intros Hok.
  - unfold UniGaussianDist_sample.
    apply negb_true_iff, Qcltb_ge in Hok.
    destruct (np_random_normal_Ok mean std 1 g Hok) as (xs & -> & Hlen).
    by do 2 eexists.
  - by do 2 eexists.
  - by do 2 eexists.
Qed.

Lemma set_to_prior_draw_from_floats (ps : list prior) (self : GeoEvent)
    (g : RandomState) :
  Forall dims_ok ps → forallb scale_ok ps = true →
  ∃ self' g', set_to_prior_draw_from ps self g = Ok (self', g') ∧
    skeleton self' = skeleton self ∧
    ∀ a, is_float (attrs self !! a) = true ∨ a ∈ concat (parnames <$> ps) →
         is_float (attrs self' !! a) = true.
Proof.
  intros Hdims. revert self g.
  induction Hdims as [|p ps Hp _ IH]; intros self g Hscale.
  { exists self, g. split; [done|]. split; [done|].
    by intros a [|?%elem_of_nil]. }
  cbn in Hscale. apply andb_true_iff in Hscale as [Hp_ok Hscale].
  cbn. destruct (sample_one p g Hp_ok) as (vals & g1 & -> & Hlen). cbn.
  destruct (IH (setattrs (parnames p) (PyFloat <$> vals) self) g1 Hscale)
    as (self' & g' & -> & Hsk & Hfl).
  exists self', g'. split; [done|]. split.
  - by rewrite Hsk, setattrs_skeleton.
  - intros a Ha. apply Hfl.
    destruct Ha as [Ha | [Ha | Ha]%elem_of_app]; [| |by right];
      left; apply setattrs_floats; try (by rewrite Hlen); auto.
Qed.

Lemma well_specified_draw (self : GeoEvent) (g : RandomState) :
  well_specified (cls self) (_priors self) = true →
  forallb scale_ok (_priors self) = true →
  ∃ self' g', set_to_prior_draw self g = Ok (self', g') ∧
    skeleton self' = skeleton self ∧ float_valued self' = true.
Proof.
  intros [Hdims Hperm]%well_specified_spec Hscale.
  destruct (set_to_prior_draw_from_floats (_priors self) self g Hdims Hscale)
    as (self' & g' & Hdraw & Hsk & Hfl).
  exists self', g'. split; [done|]. split; [done|].
  unfold float_valued. apply forallb_forall. intros a Ha%list_elem_of_In.
  apply Hfl. right. rewrite Hperm.
  injection Hsk as Hc _ _. by rewrite <- Hc.
Qed.

(** X9.  Without keywords the constructor passes its checks
    exactly when every prior has as many parameter names as its distribution
    has dimensions and the names of all priors together are the declared
    parameters of the class, each exactly once; otherwise it raises
    ValueError.  When the checks pass and no Gaussian has a negative std and
    no uniform prior a negative width, it returns an event of that class
    with these priors, no predecessor and every declared parameter set to a
    float drawn from its prior. *)
Theorem GeoEvent_init_valid (c : EventClass) (priors : list prior)
    (g : RandomState) :
  (Forall dims_ok priors ∧ concat (parnames <$> priors) ≡ₚ _pars c →
   forallb scale_ok priors = true →
   ∃ self g', GeoEvent_init c priors [] g = Ok (self, g') ∧
     cls self = c ∧ _priors self = priors ∧ previous_event self = None ∧
     float_valued self = true) ∧
  (¬ (Forall dims_ok priors ∧ concat (parnames <$> priors) ≡ₚ _pars c) →
   GeoEvent_init c priors [] g = Raise ValueError).
Proof.
  unfold GeoEvent_init. split.
  - intros Hvalid Hscale. pose proof Hvalid as Hspec%well_specified_spec.
    unfold well_specified in Hspec.
    destruct (check_priors _ _ _) as [ppars|]; [|discriminate].
    cbn [mbind result_bind]. rewrite Hspec.
    destruct (well_specified_draw
                {| cls := c; attrs := ∅; _priors := priors;
                   previous_event := None |} g)
      as (self & g' & -> & Hsk & Hfl).
    { by apply well_specified_spec. }
    { done. }
    cbn. exists (set_previous_event self None), g'.
    injection Hsk as Hc Hp _. cbn in Hc, Hp.
    unfold float_valued in *. by cbn.
  - intros Hinvalid. rewrite <- well_specified_spec in Hinvalid.
    unfold well_specified in Hinvalid.
    destruct (check_priors _ _ _) as [ppars|e] eqn:Hchk; cbn.
    + by rewrite (not_true_is_false _ Hinvalid).
    + by rewrite (check_priors_Raise _ _ _ _ Hchk).
Qed.
End MoreConstruction.

(** ** Drawing a whole history from its priors *)

Lemma parameters_set_skeleton_insert (σ : gmap loc GeoEvent) (l : loc)
    (e : GeoEvent) (h : list loc) :
  float_valued e = true → parameters_set σ h = true →
  parameters_set (<[l := e]> σ) h = true.
Proof.
  intros He. unfold parameters_set. rewrite !forallb_forall.
  intros Hset k Hk. specialize (Hset k Hk).
  destruct (decide (l = k)) as [->|Hne].
  - by rewrite lookup_insert_eq.
  - by rewrite lookup_insert_ne.
Qed.

Section MoreHistory.
Context `{Numeric}.

Lemma history_draw (σ : gmap loc GeoEvent) (event_list : list loc)
    (g : RandomState) :
  constructed σ event_list = true →
  ∃ σ' g', GeoHistory.set_to_prior_draw σ event_list g = Ok (σ', g') ∧
    (∀ l, skeleton <$> σ' !! l = skeleton <$> σ !! l) ∧
    (∀ l, l ∉ event_list → σ' !! l = σ !! l) ∧
    (∀ h, parameters_set σ h = true → parameters_set σ' h = true) ∧
    parameters_set σ' event_list = true.
Proof.
  revert σ g. induction event_list as [|k rest IH]; intros σ g Hcon.
  { exists σ, g. by repeat split. }
  cbn in Hcon. apply andb_true_iff in Hcon as [Hk Hcon].
  destruct (σ !! k) as [e|] eqn:He; [|discriminate].
  apply andb_true_iff in Hk as [Hk Hscale].
  destruct (well_specified_draw e g Hk Hscale)
    as (e' & g1 & Hdraw & Hsk & Hfl).
  destruct (IH (<[k := e']> σ) g1) as (σ' & g' & Hrest & Hsk' & Hframe & Hmono & Hset).
  { unfold constructed in *. rewrite forallb_forall in Hcon |- *.
    intros l Hl. specialize (Hcon l Hl).
    destruct (decide (k = l)) as [<-|Hne].
    - rewrite lookup_insert_eq. injection Hsk as -> -> _.
      by rewrite Hk, Hscale.
    - by rewrite lookup_insert_ne. }
  exists σ', g'. cbn. rewrite He, Hdraw. cbn. split; [done|].
  split; [|split; [|split]].
  - intros l. rewrite Hsk'. destruct (decide (k = l)) as [<-|Hne].
    + rewrite lookup_insert_eq, He. cbn. by f_equal.
    + by rewrite lookup_insert_ne.
  - intros l Hl. rewrite Hframe by set_solver.
    apply lookup_insert_ne. set_solver.
  - intros h Hh. by apply Hmono, parameters_set_skeleton_insert.
  - assert (parameters_set (<[k := e']> σ) [k] = true) as Hk'.
    { cbn. by rewrite lookup_insert_eq, Hfl. }
    apply Hmono in Hk'. unfold parameters_set in *. cbn [forallb] in *.
    rewrite andb_true_r in Hk'. by rewrite Hk', Hset.
Qed.

(** X10.  On a history whose events carry priors that the
    constructor accepts, none with a negative std or width,
    [GeoHistory.set_to_prior_draw] raises nothing; after it every declared
    parameter of every event of the history is a float, every event keeps
    its class, priors and predecessor, and events outside the history are
    untouched. *)
Theorem history_set_to_prior_draw (σ : gmap loc GeoEvent)
    (event_list : list loc) (g : RandomState) :
  constructed σ event_list = true →
  ∃ σ' g', GeoHistory.set_to_prior_draw σ event_list g = Ok (σ', g') ∧
    parameters_set σ' event_list = true ∧
    (∀ l, skeleton <$> σ' !! l = skeleton <$> σ !! l) ∧
    (∀ l, l ∉ event_list → σ' !! l = σ !! l).
Proof.
  intros Hcon.
  destruct (history_draw σ event_list g Hcon)
    as (σ' & g' & Hdraw & Hsk & Hframe & _ & Hset).
  by exists σ', g'.
Qed.
End MoreHistory.

Lemma history_set_to_prior_draw_witness :
  ∃ σ' g', @GeoHistory.set_to_prior_draw rational_numeric two_layer_store
             [0; 1] zero_stream = Ok (σ', g')
           ∧ parameters_set σ' [0; 1] = true.
Proof.
  destruct (@history_set_to_prior_draw rational_numeric two_layer_store [0; 1]
              zero_stream) as (σ' & g' & Hdraw & Hset & _); [by vm_compute|].
  by exists σ', g'.
Defined.

(** ** One sampler step: assign a vector, then evaluate *)

Lemma getattrs_all_floats (self : GeoEvent) (names : list string) (qs : list Qc) :
  getattrs self names = Ok (PyFloat <$> qs) →
  forallb (λ a, is_float (attrs self !! a)) names = true.
Proof.
  revert qs. induction names as [|a names IH]; intros qs; [done|]. cbn.
  intros (v & Hv & (vs & Hvs & [= Heq])%bind_Ok)%bind_Ok.
  destruct qs as [|q qs]; [discriminate|]. injection Heq as -> ->.
  unfold getattr in Hv. destruct (attrs self !! a) as [w|]; [|discriminate].
  injection Hv as ->. cbn. by eapply IH.
Qed.

Lemma serialize_each_floats (σ : gmap loc GeoEvent) (event_list : list loc)
    (arrays : list (list pyval)) (qs : list Qc) :
  GeoHistory.serialize_each σ event_list = Ok arrays →
  concat arrays = PyFloat <$> qs →
  parameters_set σ event_list = true.
Proof.
  revert arrays qs. induction event_list as [|l rest IH]; intros arrays qs; [done|].
  cbn. destruct (σ !! l) as [e|]; [|discriminate].
  intros (a & Ha & (arrays' & Hrest & [= <-])%bind_Ok)%bind_Ok. cbn.
  intros Hcat. symmetry in Hcat.
  apply fmap_app_inv in Hcat as (q1 & q2 & Hq1 & Hq2 & _).
  apply andb_true_iff. split; [|by eapply IH].
  rewrite Hq1 in Ha. by eapply getattrs_all_floats.
Qed.

Lemma linked_from_allocated (σ : gmap loc GeoEvent) (prev : loc) (rest : list loc) :
  linked_from σ prev rest = true → allocated σ rest = true.
Proof.
  revert prev. induction rest as [|l rest IH]; intros prev; [done|]. cbn.
  destruct (σ !! l) as [e|]; [|discriminate].
  intros [_ Hrest]%andb_true_iff.
  rewrite bool_decide_eq_true_2 by by eexists. by eapply IH.
Qed.

Lemma well_formed_chain_allocated (σ : gmap loc GeoEvent) (h : list loc) :
  well_formed_chain σ h = true → allocated σ h = true ∧ NoDup h.
Proof.
  unfold well_formed_chain.
  intros [Hnd%bool_decide_eq_true Hwf]%andb_true_iff. split; [|done].
  destruct h as [|l rest]; [done|]. cbn.
  destruct (σ !! l) as [e|]; [|discriminate].
  apply andb_true_iff in Hwf as [_ Hlink].
  rewrite bool_decide_eq_true_2 by by eexists.
  by eapply linked_from_allocated.
Qed.

(** X11.  One sampler step.  On a non-empty well-formed
    chain without events of the base class, [deserialize] of any vector of
    floats whose length is the sum of the parameter counts succeeds,
    [serialize] then returns that vector, and [rockprops] then returns one
    density for each query point (with a call stack as deep as the chain is
    long), whatever the parameters were before. *)
Theorem deserialize_then_evaluate `{Numeric} (σ : gmap loc GeoEvent)
    (event_list : list loc) (qs : list Qc) (fuel : nat)
    (r : list vec3) (h : Qc) :
  event_list ≠ [] →
  well_formed_chain σ event_list = true →
  concrete σ event_list = true →
  length qs = total_Npars σ event_list →
  length event_list ≤ fuel →
  ∃ σ' g,
    GeoHistory.deserialize σ event_list (PyFloat <$> qs) = Ok σ' ∧
    GeoHistory.serialize σ' event_list = Ok (PyFloat <$> qs) ∧
    GeoHistory.rockprops fuel σ' event_list r h = Ok g ∧
    length g = length r.
Proof.
  intros Hne Hwf Hconc Hlen Hfuel.
  destruct (well_formed_chain_allocated _ _ Hwf) as [Halloc Hnd].
  destruct (deserialize_succeeds σ event_list (PyFloat <$> qs) Halloc)
    as [σ' Hdes].
  destruct (deserialize_then_serialize_each σ σ' event_list (PyFloat <$> qs))
    as (arrays & Hser & Hcat); [done | by rewrite length_fmap | done |].
  pose proof (history_deserialize_skeleton _ _ _ _ Hdes) as Hsk.
  destruct (history_evaluates σ' event_list fuel r h) as (g & Hg & Hlg);
    try done.
  - by rewrite (well_formed_chain_skeleton σ σ').
  - by rewrite (concrete_skeleton σ σ').
  - by eapply serialize_each_floats.
  - exists σ', g. split; [done|]. split; [|done].
    unfold GeoHistory.serialize. rewrite Hser. cbn.
    apply serialize_each_length in Hser.
    destruct arrays; [by destruct event_list | by rewrite Hcat].
Qed.

Lemma deserialize_then_evaluate_witness :
  ∃ σ' g,
    GeoHistory.deserialize two_layer_store [0; 1]
      (PyFloat <$> [qc 2; qc 50; qc 1]) = Ok σ' ∧
    GeoHistory.serialize σ' [0; 1] = Ok (PyFloat <$> [qc 2; qc 50; qc 1]) ∧
    @GeoHistory.rockprops rational_numeric 2 σ' [0; 1] sample_points (qc 10)
      = Ok g ∧
    length g = length sample_points.
Proof.
  apply (@deserialize_then_evaluate rational_numeric two_layer_store [0; 1]
           [qc 2; qc 50; qc 1] 2 sample_points (qc 10));
    [discriminate | reflexivity.. | cbn; lia].
Defined.

(** ** The dictionary of parameters *)

Lemma get_kw_attrs_from_lookup (names : list string) (self : GeoEvent)
    (d d' : gmap string pyval) (a : string) :
  get_kw_attrs_from names self d = Ok d' →
  d' !! a = if bool_decide (a ∈ names) then attrs self !! a else d !! a.
Proof.
  revert d. induction names as [|n names IH]; intros d; cbn.
  - by intros [= <-].
  - intros (v & Hv & Hrest)%bind_Ok. rewrite (IH _ Hrest).
    unfold getattr in Hv. destruct (attrs self !! n) as [w|] eqn:Hn; [|discriminate].
    injection Hv as ->.
    destruct (decide (a = n)) as [->|Hne].
    + rewrite lookup_insert_eq, Hn, (bool_decide_eq_true_2 (n ∈ n :: names));
        [by case_bool_decide | left].
    + rewrite lookup_insert_ne by done.
      rewrite (bool_decide_ext (a ∈ n :: names) (a ∈ names)); [done|].
      rewrite elem_of_cons. split; [by intros [?|?] | by right].
Qed.

Lemma get_kw_attrs_from_Raise (names : list string) (self : GeoEvent)
    (d : gmap string pyval) (e : exn) :
  get_kw_attrs_from names self d = Raise e →
  e = AttributeError ∧ ∃ a, a ∈ names ∧ attrs self !! a = None.
Proof.
  revert d. induction names as [|n names IH]; intros d; cbn; [done|].
  unfold getattr at 1. destruct (attrs self !! n) as [w|] eqn:Hn; cbn.
  - intros (-> & a & Ha & Hnone)%IH. split; [done|]. exists a.
    split; [by right | done].
  - intros [= <-]. split; [done|]. exists n. split; [by left | done].
Qed.

Lemma get_kw_attrs_from_set (names : list string) (self : GeoEvent)
    (d d' : gmap string pyval) (a : string) :
  get_kw_attrs_from names self d = Ok d' → a ∈ names →
  is_Some (attrs self !! a).
Proof.
  revert d. induction names as [|n names IH]; intros d; cbn.
  - by intros _ ?%elem_of_nil.
  - intros (v & Hv & Hrest)%bind_Ok [-> | Ha]%elem_of_cons; [|by eapply IH].
    unfold getattr in Hv. by destruct (attrs self !! n).
Qed.

(** X12.  [get_kw_attrs] raises exactly when a declared parameter is unset,
    and then it raises AttributeError; otherwise it returns the dictionary
    that maps every declared parameter to its current value and holds no
    other key. *)
Theorem get_kw_attrs_spec (self : GeoEvent) :
  (get_kw_attrs self = Raise AttributeError
   ↔ ∃ a, a ∈ _pars (cls self) ∧ attrs self !! a = None) ∧
  (∀ e, get_kw_attrs self = Raise e → e = AttributeError) ∧
  (∀ d, get_kw_attrs self = Ok d →
     ∀ a, d !! a = if bool_decide (a ∈ _pars (cls self))
                   then attrs self !! a else None).
Proof.
  unfold get_kw_attrs.
  destruct (get_kw_attrs_from _ self ∅) as [d|e] eqn:Hd.
  - split; [|split; [done|]].
    + split; [done|]. intros (a & Ha & Hnone).
      destruct (get_kw_attrs_from_set _ _ _ _ a Hd Ha) as [v Hv]. congruence.
    + intros d' [= <-] a.
      by rewrite (get_kw_attrs_from_lookup _ _ _ _ a Hd), lookup_empty.
  - destruct (get_kw_attrs_from_Raise _ _ _ _ Hd) as [-> Hunset].
    split; [done|]. split; [by intros e [= <-] | done].
Qed.

(** ** More on the smooth step *)

Lemma ramp_between (h d a b : Q) :
  (0 < h →
   - (1 # 2) * h <= d → d <= (1 # 2) * h →
   (a <= b →
    a <= (1 # 2) * (a + b) + - ((a + - b) * d * / h) <= b) ∧
   (b <= a →
    b <= (1 # 2) * (a + b) + - ((a + - b) * d * / h) <= a))%Q.
Proof.
  intros Hh Hlo Hhi.
  assert (0 < / h)%Q as Hu by (by apply Qinv_lt_0_compat).
  assert (h * / h == 1)%Q as Hone by (apply Qmult_inv_r; lra).
  set (u := (/ h)%Q) in *.
  assert (0 <= (d + (1 # 2) * h) * u)%Q as H1 by nra.
  assert (0 <= ((1 # 2) * h - d) * u)%Q as H2 by nra.
  assert (- (1 # 2) <= d * u <= (1 # 2))%Q as [H3 H4] by (split; nra).
  split; intros Hab; split; nra.
Qed.

Lemma ramp_monotone (h d1 d2 a b : Q) :
  (0 < h → d1 <= d2 →
   (a <= b →
    (1 # 2) * (a + b) + - ((a + - b) * d1 * / h)
    <= (1 # 2) * (a + b) + - ((a + - b) * d2 * / h)) ∧
   (b <= a →
    (1 # 2) * (a + b) + - ((a + - b) * d2 * / h)
    <= (1 # 2) * (a + b) + - ((a + - b) * d1 * / h)))%Q.
Proof.
  intros Hh Hd.
  assert (0 < / h)%Q as Hu by (by apply Qinv_lt_0_compat).
  set (u := (/ h)%Q) in *.
  assert (0 <= (d2 - d1) * u)%Q as H1 by nra.
  split; intros Hab.
  - assert (0 <= (b - a) * ((d2 - d1) * u))%Q as H2 by nra. nra.
  - assert (0 <= (a - b) * ((d2 - d1) * u))%Q as H2 by nra. nra.
Qed.

(* the three regions of the step *)
Lemma soft_step_cases (h d a b : Qc) :
  (0 < h)%Qc →
  ((d < - half * h)%Qc ∧ soft_step h d a b = a) ∨
  ((half * h < d)%Qc ∧ soft_step h d a b = b) ∨
  ((- half * h <= d)%Qc ∧ (d <= half * h)%Qc ∧
   soft_step h d a b = (half * (a + b) - (a - b) * d / h)%Qc).
Proof.
  intros Hh.
  destruct (Qclt_le_dec d (- half * h)%Qc) as [Hlo|Hlo].
  { left. split; [done|]. by apply soft_step_low. }
  destruct (Qclt_le_dec (half * h)%Qc d) as [Hhi|Hhi].
  { right; left. split; [done|]. by apply soft_step_high. }
  right; right. split; [done|]. split; [done|]. by apply soft_step_ramp.
Qed.

Lemma soft_step_between (h d a b : Qc) :
  (0 < h)%Qc →
  ((a <= b)%Qc → (a <= soft_step h d a b)%Qc ∧ (soft_step h d a b <= b)%Qc) ∧
  ((b <= a)%Qc → (b <= soft_step h d a b)%Qc ∧ (soft_step h d a b <= a)%Qc).
Proof.
  intros Hh.
  destruct (soft_step_cases h d a b Hh)
    as [[_ ->] | [[_ ->] | (Hlo & Hhi & ->)]].
  - split; intros Hab; split; first [apply Qcle_refl | done].
  - split; intros Hab; split; first [apply Qcle_refl | done].
  - revert Hh Hlo Hhi. qc2q. intros Hh Hlo Hhi.
    destruct (ramp_between h d a b Hh Hlo Hhi) as [H1 H2].
    split; intros Hab; [apply H1 | apply H2]; done.
Qed.

Lemma soft_step_monotone (h d1 d2 a b : Qc) :
  (0 < h)%Qc → (d1 <= d2)%Qc →
  ((a <= b)%Qc → (soft_step h d1 a b <= soft_step h d2 a b)%Qc) ∧
  ((b <= a)%Qc → (soft_step h d2 a b <= soft_step h d1 a b)%Qc).
Proof.
  intros Hh Hd.
  pose proof (soft_step_between h d1 a b Hh) as [B1 B1'].
  pose proof (soft_step_between h d2 a b Hh) as [B2 B2'].
  destruct (soft_step_cases h d1 a b Hh)
    as [[L1 E1] | [[H1 E1] | (L1 & H1 & E1)]];
  destruct (soft_step_cases h d2 a b Hh)
    as [[L2 E2] | [[H2 E2] | (L2 & H2 & E2)]].
  all: try (rewrite E1, E2 at 1; split; intros; apply Qcle_refl).
  all: try (split; intros Hab; [rewrite E1 | rewrite E1]; first [apply B2 | apply B2']; done).
  all: try (split; intros Hab; [rewrite E2 | rewrite E2]; first [apply B1 | apply B1']; done).
  all: try (exfalso; revert Hh Hd L1 L2 H1 H2; qc2q; intros; lra).
  all: try (exfalso; revert Hh Hd H1 L2; qc2q; intros; lra).
  all: try (exfalso; revert Hh Hd H1 H2; qc2q; intros; lra).
  all: try (exfalso; revert Hh Hd L1 H1 L2; qc2q; intros; lra).
  rewrite E1, E2. revert Hh Hd. qc2q. intros Hh Hd.
  destruct (ramp_monotone h d1 d2 a b Hh Hd) as [M1 M2]. split; done.
Qed.

(** X13.  In exact arithmetic (the floats read as rationals), with a
    positive scale and arrays of one length, every element of
    [soft_if_then d y0 y1 h] lies between the corresponding elements of [y0]
    and [y1].  On doubles the ramp is rounded and can leave the interval by
    a rounding error: see [soft_if_then_steps_back_on_doubles]. *)
Theorem soft_if_then_between (d y0 y1 : list Qc) (h : Qc) (i : nat)
    (di a b : Qc) :
  (0 < h)%Qc →
  length y0 = length d → length y1 = length d →
  d !! i = Some di → y0 !! i = Some a → y1 !! i = Some b →
  ∃ s, soft_if_then d y0 y1 h !! i = Some s ∧
    ((a <= b)%Qc → (a <= s)%Qc ∧ (s <= b)%Qc) ∧
    ((b <= a)%Qc → (b <= s)%Qc ∧ (s <= a)%Qc).
Proof.
  intros Hh _ _ Hd Ha Hb. exists (soft_step h di a b).
  split; [by apply soft_if_then_lookup|]. by apply soft_step_between.
Qed.

Lemma soft_if_then_between_witness :
  ∃ s, soft_if_then [qc 2] [qc 3] [Q2Qc (5 # 2)] (qc 10) !! 0 = Some s ∧
       ((qc 3 <= Q2Qc (5 # 2))%Qc → (qc 3 <= s)%Qc ∧ (s <= Q2Qc (5 # 2))%Qc) ∧
       ((Q2Qc (5 # 2) <= qc 3)%Qc → (Q2Qc (5 # 2) <= s)%Qc ∧ (s <= qc 3)%Qc).
Proof.
  apply (soft_if_then_between [qc 2] [qc 3] [Q2Qc (5 # 2)] (qc 10) 0 (qc 2));
    reflexivity.
Defined.

(** X14.  In exact arithmetic (the floats read as rationals), with a
    positive scale and arrays of one length, [soft_if_then] is monotone in
    [d]: raising an element of [d] moves the result from the [y0] side
    towards the [y1] side, never back.  On doubles the rounded ramp can step
    back by a rounding error where it meets a limit: see
    [soft_if_then_steps_back_on_doubles]. *)
Theorem soft_if_then_monotone (d d' y0 y1 : list Qc) (h : Qc) (i : nat)
    (di di' a b : Qc) :
  (0 < h)%Qc → (di <= di')%Qc →
  length d' = length d → length y0 = length d → length y1 = length d →
  d !! i = Some di → d' !! i = Some di' →
  y0 !! i = Some a → y1 !! i = Some b →
  ∃ s s', soft_if_then d y0 y1 h !! i = Some s ∧
          soft_if_then d' y0 y1 h !! i = Some s' ∧
          ((a <= b)%Qc → (s <= s')%Qc) ∧ ((b <= a)%Qc → (s' <= s)%Qc).
Proof.
  intros Hh Hle _ _ _ Hd Hd' Ha Hb.
  exists (soft_step h di a b), (soft_step h di' a b).
  split; [by apply soft_if_then_lookup|].
  split; [by apply soft_if_then_lookup|].
  by apply soft_step_monotone.
Qed.

Lemma soft_if_then_monotone_witness :
  ∃ s s', soft_if_then [qc 1] [qc 3] [Q2Qc (5 # 2)] (qc 10) !! 0 = Some s ∧
          soft_if_then [qc 2] [qc 3] [Q2Qc (5 # 2)] (qc 10) !! 0 = Some s' ∧
          ((qc 3 <= Q2Qc (5 # 2))%Qc → (s <= s')%Qc) ∧
          ((Q2Qc (5 # 2) <= qc 3)%Qc → (s' <= s)%Qc).
Proof.
  apply (soft_if_then_monotone [qc 1] [qc 2] [qc 3] [Q2Qc (5 # 2)] (qc 10) 0
           (qc 1) (qc 2)); first [reflexivity | by vm_compute].
Defined.

(** ** More on the distributions *)

Section MorePriors.
Context `{Numeric}.

(** X15.  With a non-negative width and a generator whose
    uniform deviates lie in [0, 1], [UniformDist.sample(size)] returns [size]
    values; in exact arithmetic (the floats read as rationals) each lies
    inside the support [mean - width/2, mean + width/2], so that the
    log-density of each is [-log(width)] and not -inf.  On doubles a draw
    at the edge of the support can fail the test of [__call__] by a
    rounding error: see [UniformDist_sample_edge_is_rounded]. *)
Theorem UniformDist_sample_in_support (mean width : Qc) (size : nat)
    (g : RandomState) :
  (0 <= width)%Qc →
  (∀ i, (0 <= std_uniform g i)%Qc ∧ (std_uniform g i <= 1)%Qc) →
  length (UniformDist_sample mean width size g).1 = size ∧
  ∀ x, x ∈ (UniformDist_sample mean width size g).1 →
       in_support (UniformDist mean width) [x] = true ∧
       UniformDist_call mean width x = (- xlog width)%X.
Proof.
  intros Hw Hu. split; [apply np_random_uniform_length|].
  intros x Hx. unfold UniformDist_sample, np_random_uniform in Hx. cbn in Hx.
  apply list_elem_of_fmap in Hx as (i & -> & _).
  destruct (Hu (cursor g + i)) as [H0 H1].
  set (u := std_uniform g (cursor g + i)) in *.
  assert (in_support (UniformDist mean width)
            [(mean - half * width + (mean + half * width - (mean - half * width)) * u)%Qc]
          = true) as Hin.
  { cbn. apply andb_true_iff.
    split; apply negb_true_iff, Qcltb_ge; revert Hw H0 H1; qc2q; intros; nra. }
  split; [done|].
  unfold UniformDist_call. by rewrite UniformDist_test_support, Hin.
Qed.

(* with a non-zero std the quadratic term is a number *)
Lemma UniGaussianDist_call_nonzero (mean std x : Qc) :
  std ≠ 0%Qc →
  UniGaussianDist_call mean std x
  = (Fin (- half * ((x - mean) / std * ((x - mean) / std)))
     + Fin (- half) * xlog (two * np_pi * std ^ 2))%X.
Proof.
  intros Hstd. unfold UniGaussianDist_call, xdiv.
  by destruct (Qc_eq_dec std 0%Qc).
Qed.

(** X16.  With a non-zero std the Gaussian log-density at
    the mean is the normalisation term [-0.5*log(2*pi*std**2)] alone, and the
    log-density is symmetric about the mean (in exact arithmetic: the
    differences from the mean are not rounded). *)
Theorem UniGaussianDist_call_at_mean (mean std : Qc) :
  std ≠ 0%Qc →
  UniGaussianDist_call mean std mean
    = (Fin (- half) * xlog (two * np_pi * std ^ 2))%X ∧
  ∀ t, UniGaussianDist_call mean std (mean + t)
       = UniGaussianDist_call mean std (mean - t).
Proof.
  intros Hstd. split.
  - rewrite UniGaussianDist_call_nonzero by done.
    assert ((- half * ((mean - mean) / std * ((mean - mean) / std)))%Qc = 0%Qc)
      as -> by (unfold Qcdiv; ring).
    apply xadd_0_l.
  - intros t. rewrite !UniGaussianDist_call_nonzero by done.
    do 2 f_equal. unfold Qcdiv. ring.
Qed.
End MorePriors.

Lemma UniformDist_sample_in_support_witness :
  length (UniformDist_sample (qc (-4200)) (qc 1000) 4 zero_stream).1 = 4.
Proof.
  refine (proj1 (@UniformDist_sample_in_support rational_numeric
                   (qc (-4200)) (qc 1000) 4 zero_stream _ _)).
  - by vm_compute.
  - intros i. split; by vm_compute.
Defined.

Lemma UniGaussianDist_call_at_mean_witness :
  @UniGaussianDist_call rational_numeric (qc 3) half (qc 3)
  = (Fin (- half) * @xlog rational_numeric (two * @np_pi rational_numeric * half ^ 2))%X.
Proof.
  refine (proj1 (@UniGaussianDist_call_at_mean rational_numeric (qc 3) half _)).
  intros Heq. apply Qc_eq_Qeq in Heq. by vm_compute in Heq.
Defined.

(** ** The two implementations of a layered model *)

Lemma drop_last_two (p : list Qc) (a b : Qc) :
  drop (length (p ++ [a; b]) - 2) (p ++ [a; b]) = [a; b] ∧
  take (length (p ++ [a; b]) - 2) (p ++ [a; b]) = p.
Proof.
  rewrite length_app. cbn [length].
  replace (length p + 2 - 2) with (length p) by lia.
  by rewrite drop_app_length, take_app_length.
Qed.

(* StratigraphicLayer needs two parameters of its own *)
Lemma StratigraphicLayer_short (base : GeoFunc) (r : list vec3) (h : Qc)
    (p : list Qc) :
  length p < 2 → StratigraphicLayer base r h p = Raise ValueError.
Proof.
  intros Hlen. unfold StratigraphicLayer.
  by destruct p as [|a [|b p]]; cbn in *; try lia.
Qed.

Section TwoImplementations.
Context `{Numeric}.

Lemma layered_chain_agrees (σ : gmap loc GeoEvent) (h : Qc) (rest : list loc) :
  ∀ (prev k n : nat) (pre post : list Qc) (arrays : list (list pyval)),
  (∀ fuel r, n ≤ fuel →
     rockprops fuel σ prev r h = Nat.iter k StratigraphicLayer Basement r h pre) →
  linked_from σ prev rest = true → layered σ rest = true →
  GeoHistory.serialize_each σ rest = Ok arrays →
  concat arrays = PyFloat <$> post →
  ∀ fuel r, n + length rest ≤ fuel →
    rockprops fuel σ (default prev (last rest)) r h
    = Nat.iter (k + length rest) StratigraphicLayer Basement r h (pre ++ post).
Proof.
  induction rest as [|l rest IH];
    intros prev k n pre post arrays Hprev Hlink Hlay Hser Hcat fuel r Hfuel.
  { cbn in Hser. injection Hser as <-. destruct post; [|discriminate].
    rewrite app_nil_r, Nat.add_0_r. apply Hprev. cbn in Hfuel. lia. }
  cbn in Hlink, Hlay, Hser.
  destruct (σ !! l) as [e|] eqn:Hl; [|discriminate].
  apply andb_true_iff in Hlink as [Hp%bool_decide_eq_true Hlink].
  apply andb_true_iff in Hlay as [Hc%bool_decide_eq_true Hlay].
  apply bind_Ok in Hser as (a & Ha & (arrays' & Hrest & [= <-])%bind_Ok).
  unfold serialize in Ha. rewrite Hc in Ha. cbn in Ha.
  apply bind_Ok in Ha as (vt & Hvt & (vs & (vd & Hvd & [= <-])%bind_Ok & [= <-])%bind_Ok).
  cbn in Hcat. destruct post as [|t [|d post]]; try discriminate.
  injection Hcat as -> -> Hcat.
  rewrite last_cons_default.
  replace (k + length (l :: rest)) with (S k + length rest) by (cbn; lia).
  replace (pre ++ t :: d :: post) with ((pre ++ [t; d]) ++ post)
    by (by rewrite <- (assoc_L (++))).
  apply (IH l (S k) (S n) (pre ++ [t; d]) post arrays');
    [|done..| cbn in Hfuel; lia].
  intros [|fuel'] r' Hf; [lia|].
  cbn -[vadd soft_if_then]. rewrite Hl, Hc, Hp. unfold getfloat.
  rewrite Hvt, Hvd. cbn -[vadd soft_if_then].
  unfold StratigraphicLayer.
  destruct (drop_last_two pre t d) as [-> ->].
  rewrite Hprev by lia. done.
Qed.

(** X17.  The two implementations agree on layered models.
    For a well-formed chain of a [BasementEvent] followed by
    [StratLayerEvent]s, the stack of [StratigraphicLayer] GeoFuncs over
    [Basement], called with the vector that [GeoHistory.serialize] returns,
    gives exactly what [GeoHistory.rockprops] gives. *)
Theorem GeoFunc_agrees_with_events (σ : gmap loc GeoEvent)
    (l0 : loc) (rest : list loc) (qs : list Qc) (fuel : nat)
    (r : list vec3) (h : Qc) :
  well_formed_chain σ (l0 :: rest) = true →
  layered σ rest = true →
  GeoHistory.serialize σ (l0 :: rest) = Ok (PyFloat <$> qs) →
  length (l0 :: rest) ≤ fuel →
  GeoHistory.rockprops fuel σ (l0 :: rest) r h
  = Nat.iter (length rest) StratigraphicLayer Basement r h qs.
Proof.
  unfold well_formed_chain, GeoHistory.serialize.
  intros [_ Hwf]%andb_true_iff Hlay Hser Hfuel.
  cbn in Hser. destruct (σ !! l0) as [e|] eqn:Hl; [|discriminate].
  apply andb_true_iff in Hwf as [Hc%bool_decide_eq_true Hlink].
  apply bind_Ok in Hser as (arrays & Harr & Hcat).
  apply bind_Ok in Harr as (a & Ha & (arrays' & Hrest & [= <-])%bind_Ok).
  injection Hcat as Hcat. cbn in Hcat.
  unfold serialize in Ha. rewrite Hc in Ha. cbn in Ha.
  apply bind_Ok in Ha as (v & Hv & [= <-]).
  destruct qs as [|rho post]; [discriminate|]. injection Hcat as -> Hcat.
  unfold GeoHistory.rockprops. rewrite last_cons_Some.
  apply (layered_chain_agrees σ h rest l0 0 1 [rho] post arrays');
    [|done..| cbn in Hfuel; lia].
  intros [|fuel'] r' Hf; [lia|].
  cbn. rewrite Hl, Hc. unfold getfloat. by rewrite Hv.
Qed.
End TwoImplementations.

Lemma GeoFunc_agrees_with_events_witness :
  @GeoHistory.rockprops rational_numeric 2 two_layer_store [0; 1]
    sample_points (qc 10)
  = StratigraphicLayer Basement sample_points (qc 10)
      [qc 3; qc 100; Q2Qc (5 # 2)].
Proof.
  apply (@GeoFunc_agrees_with_events rational_numeric two_layer_store 0 [1]
           [qc 3; qc 100; Q2Qc (5 # 2)] 2 sample_points (qc 10));
    [reflexivity | reflexivity | by vm_compute | cbn; lia].
Defined.

(** ** The length of the parameter vector of a GeoFunc stack *)

Lemma split_last_two (p : list Qc) :
  2 ≤ length p → ∃ p' a b, p = p' ++ [a; b].
Proof.
  intros Hlen.
  destruct p as [|b p _] using rev_ind; [cbn in Hlen; lia|].
  destruct p as [|a p _] using rev_ind.
  { cbn in Hlen. lia. }
  exists p, a, b. by rewrite <- (assoc_L (++)).
Qed.

(** X18.  A stack of k [StratigraphicLayer]s over [Basement] needs
    2k+1 parameters.  With at least that many it returns one density for each
    point (each layer takes the last two values of what it is given, the
    basement the first value of what is left); with exactly 2k the basement
    finds an empty vector and raises IndexError; with fewer a layer cannot
    unpack its two values and raises ValueError. *)
Theorem GeoFunc_stack_arity (k : nat) (r : list vec3) (h : Qc) (p : list Qc) :
  (2 * k + 1 ≤ length p →
   ∃ g, Nat.iter k StratigraphicLayer Basement r h p = Ok g
        ∧ length g = length r) ∧
  (length p = 2 * k →
   Nat.iter k StratigraphicLayer Basement r h p = Raise IndexError) ∧
  (length p < 2 * k →
   Nat.iter k StratigraphicLayer Basement r h p = Raise ValueError).
Proof.
  revert r p. induction k as [|k IH]; intros r p.
  { cbn. destruct p as [|rho p]; cbn; repeat split; try lia; try done.
    intros _. eexists. split; [done|]. by rewrite length_map. }
  change (Nat.iter (S k) StratigraphicLayer Basement)
    with (StratigraphicLayer (Nat.iter k StratigraphicLayer Basement)).
  destruct (decide (length p < 2)) as [Hshort|Hlong].
  { rewrite StratigraphicLayer_short by done. repeat split; try lia; done. }
  destruct (split_last_two p) as (p' & a & b & ->); [lia|].
  set (base := Nat.iter k StratigraphicLayer Basement).
  assert (StratigraphicLayer base r h (p' ++ [a; b])
          = (rho_down ← base (map (λ q, vadd q (0, 0, a)%Qc) r) h p';
             Ok (soft_if_then (map zcoord (map (λ q, vadd q (0, 0, a)%Qc) r))
                   rho_down (map (λ _, b * 1)%Qc r) h))) as ->.
  { unfold StratigraphicLayer. by destruct (drop_last_two p' a b) as [-> ->]. }
  rewrite length_app. cbn [length].
  destruct (IH (map (λ q, vadd q (0, 0, a)%Qc) r) p') as (Hok & Hidx & Hval).
  fold base in Hok, Hidx, Hval.
  repeat split.
  - intros Hlen. destruct Hok as (g & -> & Hg); [lia|]. cbn.
    eexists. split; [done|].
    rewrite length_map in Hg.
    rewrite soft_if_then_length; rewrite !length_map; done.
  - intros Hlen. rewrite Hidx by lia. done.
  - intros Hlen. rewrite Hval by lia. done.
Qed.

(** ** One draw of a direction *)

Section MoreSampling.
Context `{Numeric}.

(** X19.  [vMFDist.sample(size)] returns one pair (elevation,
    azimuth) when [size] is 1 or 3, and raises ValueError for every other
    size, because an array of shape (size,) is multiplied with the mode
    vector of shape (3,). *)
Theorem vMFDist_sample_sizes (th0 ph0 kappa : Qc) (size : nat) (g : RandomState) :
  (size = 1 ∨ size = 3 →
   ∃ th ph g', sample (vMFDist th0 ph0 kappa) size g = Ok ([th; ph], g')) ∧
  (size ≠ 1 → size ≠ 3 →
   sample (vMFDist th0 ph0 kappa) size g = Raise ValueError).
Proof.
  split.
  - intros [-> | ->]; cbn; by do 3 eexists.
  - intros H1 H3. cbn. unfold vMFDist_sample, np_random_uniform. cbn.
    destruct size as [|[|[|[|size]]]]; try done.
Qed.
End MoreSampling.

(** ** Antialiasing *)

Import Antialias.

Lemma count_true_le (bs : list bool) : count_true bs ≤ length bs.
Proof. induction bs as [|[] bs IH]; cbn; lia. Qed.

Lemma count_true_negb (bs : list bool) :
  count_true (negb <$> bs) + count_true bs = length bs.
Proof. induction bs as [|[] bs IH]; cbn; lia. Qed.

Lemma qc_nat_Q (n : nat) : (qc (Z.of_nat n) == inject_Z (Z.of_nat n))%Q.
Proof. unfold qc, Q2Qc. cbn [this]. apply Qred_correct. Qed.

Lemma np_mean_nonempty (bs : list bool) :
  bs ≠ [] →
  np_mean bs = Fin (qc (Z.of_nat (count_true bs)) / qc (Z.of_nat (length bs)))%Qc.
Proof.
  intros Hne. unfold np_mean, ratio, xdiv.
  destruct (Qc_eq_dec (qc (Z.of_nat (length bs))) 0%Qc) as [Hz|]; [|done].
  exfalso. apply Qc_eq_Qeq in Hz. rewrite qc_nat_Q in Hz.
  destruct bs; [done|]. cbn [length] in Hz.
  apply (Qeq_bool_neq (inject_Z (Z.of_nat (S (length bs)))) 0); [|done].
  unfold Qeq_bool, inject_Z. cbn. apply Z.eqb_neq. lia.
Qed.

Lemma qc_nat_add (a b : nat) :
  qc (Z.of_nat (a + b)) = (qc (Z.of_nat a) + qc (Z.of_nat b))%Qc.
Proof.
  apply Qc_is_canon. unfold Qcplus, Q2Qc. cbn [this].
  rewrite Qred_correct, !qc_nat_Q, Nat2Z.inj_add, inject_Z_plus. reflexivity.
Qed.

Lemma qc_nat_nonneg (a : nat) : (0 <= qc (Z.of_nat a))%Qc.
Proof.
  unfold Qcle. rewrite qc_nat_Q. cbn [this Q2Qc]. rewrite Qred_correct.
  change 0%Q with (inject_Z 0). rewrite <- Zle_Qle. lia.
Qed.

Lemma qc_nat_pos (a : nat) : 0 < a → (0 < qc (Z.of_nat a))%Qc.
Proof.
  intros Ha. unfold Qclt. rewrite qc_nat_Q. cbn [this Q2Qc]. rewrite Qred_correct.
  change 0%Q with (inject_Z 0). rewrite <- Zlt_Qlt. lia.
Qed.

Lemma mean_pair_bounds (A B M : Qc) :
  (0 < M)%Qc → (0 <= A)%Qc → (A <= M)%Qc → (0 <= B)%Qc → (B <= M)%Qc →
  (0 <= half * (A / M + B / M))%Qc ∧ (half * (A / M + B / M) <= 1)%Qc.
Proof.
  qc2q. intros HM HA0 HA1 HB0 HB1.
  assert (0 < / M)%Q as Hu by (by apply Qinv_lt_0_compat).
  assert (M * / M == 1)%Q as Hone by (apply Qmult_inv_r; lra).
  set (u := (/ M)%Q) in *.
  assert (0 <= A * u)%Q by nra. assert (0 <= B * u)%Q by nra.
  assert (0 <= (M - A) * u)%Q by nra. assert (0 <= (M - B) * u)%Q by nra.
  split; nra.
Qed.

Lemma dot_vneg (a n : vec3) : dot a (vneg n) = (- dot a n)%Qc.
Proof. destruct a as [[a1 a2] a3], n as [[n1 n2] n3]. cbn. ring. Qed.

Lemma Qcltb_opp_l (m : Qc) : Qcltb (- m) 0%Qc = Qcltb 0%Qc m.
Proof.
  apply eq_true_iff_eq. rewrite !Qcltb_lt. qc2q. split; intros; lra.
Qed.

Lemma Qcltb_opp_r (m : Qc) : Qcltb 0%Qc (- m) = Qcltb m 0%Qc.
Proof.
  apply eq_true_iff_eq. rewrite !Qcltb_lt. qc2q. split; intros; lra.
Qed.

Lemma count_true_mono {A} (f g : A → bool) (l : list A) :
  (∀ x, f x = true → g x = true) →
  count_true (f <$> l) ≤ count_true (g <$> l).
Proof.
  intros Hfg. induction l as [|x l IH]; [done|]. cbn.
  specialize (Hfg x). destruct (f x), (g x); lia.
Qed.

Lemma Qcltb_asym (x y : Qc) : Qcltb x y = true → Qcltb y x = false.
Proof.
  rewrite Qcltb_lt, Qcltb_ge. apply Qclt_le_weak.
Qed.



(** X21.  For a number of features that the constructor accepts
    (1, 2 or 3), [predict_1d] asks the Gaussian process at the rows
    [d_i, 0.44, 0.64] cut to that number of columns, and every value it
    returns lies in [0, 1], whatever numbers the Gaussian process predicts. *)
Theorem predict_1d_clipped (gp_predict : list (list Qc) → list Qc)
    (N_features : nat) (d : list Qc) :
  GaussianProcessAntialiasing_init N_features = Ok N_features →
  predict_1d gp_predict N_features d
    = clip01 (gp_predict
                (map (λ di, take N_features
                              [di; Q2Qc (44 # 100); Q2Qc (64 # 100)]) d)) ∧
  ∀ y, y ∈ predict_1d gp_predict N_features d → (0 <= y)%Qc ∧ (y <= 1)%Qc.
Proof.
  intros Hinit. split.
  - unfold GaussianProcessAntialiasing_init in Hinit.
    case_bool_decide as HN; [|discriminate]. unfold predict_1d, set_column.
    do 2 f_equal.
    repeat (apply elem_of_cons in HN as [-> | HN];
            [ rewrite ?bool_decide_eq_true_2 by lia;
              rewrite ?bool_decide_eq_false_2 by lia;
              rewrite ?map_map; by apply map_ext |]).
    by apply elem_of_nil in HN.
  - intros y (z & -> & _)%list_elem_of_fmap. cbv beta zeta.
    destruct (Qcltb z 0%Qc) eqn:Hz.
    + assert (Qcltb 1%Qc 0%Qc = false) as -> by reflexivity. by split.
    + destruct (Qcltb 1%Qc z) eqn:Hz1; [by split|].
      by apply Qcltb_ge in Hz, Hz1.
Qed.

Lemma predict_1d_clipped_witness :
  predict_1d sample_gp 3 [qc (-1); Q2Qc (1 # 4); qc 2]
  = clip01 (sample_gp [[qc (-1); Q2Qc (44 # 100); Q2Qc (64 # 100)];
                       [Q2Qc (1 # 4); Q2Qc (44 # 100); Q2Qc (64 # 100)];
                       [qc 2; Q2Qc (44 # 100); Q2Qc (64 # 100)]]).
Proof.
  refine (proj1 (predict_1d_clipped sample_gp 3 [qc (-1); Q2Qc (1 # 4); qc 2] _)).
  reflexivity.
Defined.

(** X22.  The piecewise linear profile [parpV1] of the
    antialiasing comparison is the smooth step of [implicit.py] from 0 to 1
    with unit scale. *)
Theorem parpV1_is_soft_if_then (x : list Qc) :
  parpV1 x = soft_if_then x (replicate (length x) 0%Qc)
               (replicate (length x) 1%Qc) 1%Qc.
Proof.
  induction x as [|xi x IH]; [done|]. cbn [parpV1 map length replicate soft_if_then].
  rewrite <- IH. f_equal. unfold soft_step.
  assert ((half * (0 + 1) - (0 - 1) * xi / 1)%Qc = (1 * xi + half)%Qc) as ->.
  { unfold half. apply Qc_is_canon. qc2q. field. }
  assert (Qcltb (1 * xi + half) 0%Qc = Qcltb xi (- half * 1)%Qc) as ->.
  { apply eq_true_iff_eq. rewrite !Qcltb_lt. qc2q. split; intros; lra. }
  assert (Qcltb (half * 1)%Qc xi = Qcltb 1%Qc (1 * xi + half)%Qc) as Hhi.
  { apply eq_true_iff_eq. rewrite !Qcltb_lt. qc2q. split; intros; lra. }
  rewrite Hhi.
  destruct (Qcltb xi (- half * 1)%Qc) eqn:Hlo; [|done].
  assert (Qcltb 1%Qc (1 * xi + half)%Qc = false) as ->; [|done].
  rewrite <- Hhi. apply Qcltb_lt in Hlo. apply Qcltb_ge.
  revert Hlo. qc2q. intros. lra.
Qed.

(** ** Keywords, again *)

(** X23.  For every event class, every list of priors and
    every generator, a keyword dictionary that names a declared parameter of
    the class makes the constructor raise: no event is built. *)
Theorem keyword_of_declared_parameter_raises `{Numeric} (c : EventClass)
    (priors : list prior) (kwargs : list (string * pyval)) (g : RandomState)
    (key : string) (val : pyval) :
  key ∈ _pars c → (key, val) ∈ kwargs →
  ∃ e, GeoEvent_init c priors kwargs g = Raise e.
Proof.
  apply GeoEvent_init_declared_fails.
Qed.

Lemma keyword_of_declared_parameter_raises_witness :
  ∃ e, @GeoEvent_init rational_numeric FoldEvent fold_priors
         [("pitch", PyFloat (qc 10))] zero_stream = Raise e.
Proof.
  apply (@keyword_of_declared_parameter_raises rational_numeric FoldEvent
           fold_priors [("pitch", PyFloat (qc 10))] zero_stream
           "pitch" (PyFloat (qc 10))).
  - apply list_elem_of_In. cbn. tauto.
  - apply list_elem_of_In. cbn. tauto.
Defined.

(** ** The definitions at work *)

(* plot_soft_if_then: a step from 0.8 down to 0.2 over a width of 10 *)
Example soft_if_then_plot :
  soft_if_then [qc (-10); qc (-5); qc 0; Q2Qc (5 # 2); qc 5; qc 10]
    (replicate 6 (Q2Qc (4 # 5))) (replicate 6 (Q2Qc (1 # 5))) (qc 10)
  = [Q2Qc (4 # 5); Q2Qc (4 # 5); Q2Qc (1 # 2); Q2Qc (7 # 20); Q2Qc (1 # 5);
     Q2Qc (1 # 5)].
Proof. qc_compute. Qed.

(* a layer needs a prior for its thickness as well *)
Example init_missing_prior :
  @GeoEvent_init rational_numeric StratLayerEvent basement_priors [] zero_stream
  = Raise ValueError.
Proof. reflexivity. Qed.

(* a prior on a name that the class does not declare *)
Example init_foreign_prior :
  @GeoEvent_init rational_numeric BasementEvent strat_priors [] zero_stream
  = Raise ValueError.
Proof. reflexivity. Qed.

(* the constructor draws the initial values from the priors *)
Example init_draws_from_priors :
  (λ r, match r with Ok (e, _) => Some (serialize e, previous_event e)
               | Raise _ => None end)
    (@GeoEvent_init rational_numeric StratLayerEvent strat_priors [] zero_stream)
  = Some (Ok [PyFloat (qc 1900); PyFloat (Q2Qc (5 # 2))], None).
Proof. qc_compute. Qed.

(* an event appended twice becomes its own predecessor: Python reaches its
   recursion limit *)
Example rockprops_cycle :
  ∃ σ h, GeoHistory.add_event
           (<[1 := strat_layer (qc 100) (qc 2) (Some 0)]> two_layer_store)
           [0; 1] 1 = Ok (σ, h)
         ∧ @GeoHistory.rockprops rational_numeric recursion_limit σ h
             [(0, 0, 0)%Qc] (qc 10) = Raise RecursionError.
Proof. do 2 eexists. split; [reflexivity|]. by vm_compute. Qed.

(* a layer that was never appended to a history has no predecessor *)
Example rockprops_unlinked :
  @rockprops rational_numeric recursion_limit unlinked_store 1
    [(0, 0, 0)%Qc] (qc 10) = Raise AssertionError.
Proof. by vm_compute. Qed.

(* a dictionary key of two characters whose first is a parameter name
   stores the second character in that parameter *)
Example set_kw_attrs_stores_character :
  (self ← set_kw_attrs [("s0", PyFloat (qc 7))]
            (planar_fault 0%Qc 0%Qc 0%Qc 0%Qc (qc 1) None);
   getattr self "s")
  = Ok (PyStr "0").
Proof. by vm_compute. Qed.

Example partial_volume_half :
  partial_volume sample_grid (0, 0, 0)%Qc (0, 0, 1)%Qc = Fin half.
Proof. qc_compute. Qed.

Example partial_volume_no_cells :
  partial_volume [] (0, 0, 0)%Qc (0, 0, 1)%Qc = NaN.
Proof. reflexivity. Qed.

Example predict_1d_values :
  predict_1d sample_gp 3 [qc (-1); Q2Qc (1 # 4); qc 2]
  = [0%Qc; half; 1%Qc].
Proof. qc_compute. Qed.

Example init_fold_event :
  (λ r, match r with Ok (e, _) => Some (float_valued e) | Raise _ => None end)
    (@GeoEvent_init rational_numeric FoldEvent fold_priors [] zero_stream)
  = Some true.
Proof. by vm_compute. Qed.

Example get_kw_attrs_basement :
  get_kw_attrs (basement (qc 3)) = Ok {[ "density" := PyFloat (qc 3) ]}.
Proof. by vm_compute. Qed.

(** ** Rounding at work

    What exact arithmetic promises and doubles miss by one rounding. *)

(* just below d = -h/2 the mask returns y0 = 0.1; at d = -h/2 the ramp
   returns less: the step goes back, and below both limits *)
Example soft_if_then_steps_back_on_doubles :
  (-0x1.4000000000001p+2 <? -5)%float = true ∧
  Binary64.soft_step 10 (-0x1.4000000000001p+2) Binary64.d0_1 Binary64.d0_7
    = Binary64.d0_1 ∧
  (Binary64.soft_step 10 (-5) Binary64.d0_1 Binary64.d0_7
   <? Binary64.d0_1)%float = true.
Proof. repeat split; reflexivity. Qed.

(* UniformDist(3.0, 0.7): the deviate 0.0 gives the lower edge 2.65 of the
   support, whose distance from the mean is rounded above 0.35 *)
Example UniformDist_sample_edge_is_rounded :
  Binary64.outside_support 3 Binary64.d0_7
    (Binary64.UniformDist_sample 3 Binary64.d0_7 0) = true.
Proof. reflexivity. Qed.

(* one of three cells below the plane: 1/3 and 2/3 are rounded, and the
   two partial volumes miss 1 by one unit in the last place *)
Example partial_volume_complement_is_rounded :
  (Binary64.partial_volume Binary64.grid3 (0, 0, 0) (Binary64.vneg (0, 0, 1))
   <? 1 - Binary64.partial_volume Binary64.grid3 (0, 0, 0) (0, 0, 1))%float
  = true.
Proof. reflexivity. Qed.
